(** * Tablet allocation and auto-taper generation of the xSone taper handout builder

    A shallow embedding of the allocation core of [src/main.ts]
    ([allocateTablets], [generateAutoSchedule] and the helpers they call:
    [createSegment], [normalizeStrengths], [totalDose]) together with the
    properties the specification states about it.

    Numbers.  The code computes on IEEE 754 doubles.  Two embeddings of its
    arithmetic are given.

    - [F64] is [allocateTablets] on the doubles themselves (primitive
      floats): it evaluates the code at concrete inputs, overflow to
      [Infinity] and [NaN] included.

    - Everywhere else a [number] is an exact rational ([Q]), kept in lowest
      terms so that equal numbers are syntactically equal.  This is the
      code's arithmetic wherever no operation rounds, and only there: a
      statement about the value of a dose, a count or a remainder is made
      on inputs that keep the doubles exact.  These are the inputs of the
      grid ([grid_dose], [grid_strengths], [grid_config]): doses and
      decrements that are multiples of 0.25 mg and strengths that are
      multiples of 0.5 mg (the number inputs of the page step by 0.5), of
      at most [limit] mg.  There the quotient of remaining dose and
      strength is a ratio of two integers below 2^53, so that its double
      has the same floor; the count is a whole number of halves, count
      times strength and what remains are multiples of 0.25 below 2^53,
      and a hundred times that is an integer, which [Math.round] keeps.
      Off the grid the doubles round and the two embeddings part (0.7 mg
      over the strength 0.1 gives 6.5 tablets on doubles, 7 on rationals);
      statements made there do not depend on what an operation rounds to
      (the keys of an object, the number of steps against the cap, a
      count being a whole number of halves) or leave room for it (a
      remainder that is not negative: the rounding error of a product is
      far below the 0.005 mg under which [Math.round] gives 0), and where
      a value could leave the finite doubles they are made for magnitudes
      that keep it there ([moderate]).

    The concrete inputs used below, and every dose up to 1000 mg in steps
    of 0.25 mg over every selection of the strengths the page offers, are
    replayed on [F64] ([binary64_agrees]), where the code returns the same
    tablets and remainders. *)

From Stdlib Require Import QArith Qround Qabs ZArith Lia Psatz String Ascii.
From Stdlib Require PrimFloat Uint63.
From stdpp Require Import gmap.

Local Open Scope Q_scope.

(** ** JavaScript numbers *)

Module Num.

Definition mul (a b : Q) : Q := Qred (a * b).
Definition div (a b : Q) : Q := Qred (a / b).
Definition sub (a b : Q) : Q := Qred (a - b).
Definition add (a b : Q) : Q := Qred (a + b).

(** [Math.floor] *)
Definition floor (x : Q) : Q := inject_Z (Qfloor x).

(** [Math.round]: the nearest integer, a tie going up. *)
Definition round (x : Q) : Q := inject_Z (Qfloor (x + (1 # 2))).

(** [Math.max] *)
Definition max (a b : Q) : Q := if Qle_bool a b then b else a.

(** [Number(x) || d]: [d] replaces a zero (and [NaN], not in the model). *)
Definition or_else (x d : Q) : Q := if Qeq_bool x 0 then d else x.

(** [a > b] *)
Definition gtb (a b : Q) : bool := negb (Qle_bool a b).

End Num.

(** ** Objects keyed by a number: [Record<number, number>]

    An object is the list of its entries in insertion order; assigning to a
    key that is present overwrites its value in place.  JavaScript lists
    integer keys first, in ascending order: the order of the entries plays
    no part below. *)

Definition Tablets := list (Q * Q).

Fixpoint obj_set (t : Tablets) (k v : Q) : Tablets :=
  match t with
  | [] => [(k, v)]
  | (k', v') :: t' =>
      if Qeq_bool k' k then (k', v) :: t' else (k', v') :: obj_set t' k v
  end.

Fixpoint obj_get (t : Tablets) (k : Q) : option Q :=
  match t with
  | [] => None
  | (k', v') :: t' => if Qeq_bool k' k then Some v' else obj_get t' k
  end.

(** [totalDose]: [Object.entries(tablets).reduce(...)] from 0. *)
Definition totalDose (t : Tablets) : Q :=
  fold_left (fun sum e => Num.add sum (Num.mul (fst e) (snd e))) t 0.

(** ** The allocator *)

Record Allocation := { tablets : Tablets; remainder : Q }.

(** The body of [strengths.forEach] in [allocateTablets], on the pair of
    the object under construction and the local [remaining], in exact
    arithmetic: the values of the code on the grid, where the division is
    the only operation whose double is not exact and its floor is not
    affected.  [F64.allocate_step] is the same body on doubles. *)
Definition allocate_step (acc : Tablets * Q) (strength : Q) : Tablets * Q :=
  let '(tablets, remaining) := acc in
  let rawCount := Num.div remaining strength in
  let count := Num.max 0 (Num.div (Num.floor (Num.mul rawCount 2)) 2) in
  let tablets := obj_set tablets strength count in
  let remaining := Num.sub remaining (Num.mul count strength) in
  let remaining := Num.div (Num.round (Num.mul remaining 100)) 100 in
  (tablets, remaining).

Definition allocateTablets (total : Q) (strengths : list Q) : Allocation :=
  let '(t, r) := fold_left allocate_step strengths ([], total) in
  {| tablets := t; remainder := r |}.

(** ** The allocator on binary64

    [allocateTablets] once more, on IEEE 754 doubles, the numbers the code
    runs on.  It evaluates the code at concrete inputs: [binary64_agrees D S]
    says that the run on the doubles nearest to [D] and [S] returns the
    doubles nearest to what the run on the rationals returns. *)

Module F64.
Import PrimFloat.
Local Open Scope float_scope.

Definition two52 : float := 4503599627370496.

(** [Math.floor].  Below 2^52 in magnitude, adding and taking away 2^52
    rounds to an integer, which is one too many when it lies above [x];
    from 2^52 on every double is an integer.  A zero result has the sign
    of [x]. *)
Definition signed_zero (x : float) : float := if get_sign x then neg_zero else zero.

Definition floor (x : float) : float :=
  if abs x <? two52 then
    let t := if x <? 0 then (x - two52) + two52 else (x + two52) - two52 in
    let r := if x <? t then t - 1 else t in
    if r =? 0 then signed_zero x else r
  else x.

(** [Math.round]: the nearest integer, a tie going up. *)
Definition round (x : float) : float :=
  let f := floor x in
  let r := if 0.5 <=? x - f then f + 1 else f in
  if r =? 0 then signed_zero x else r.

(** [Math.max] *)
Definition max (a b : float) : float :=
  if is_nan a then a else if is_nan b then b
  else if a <? b then b else if b <? a then a
  else if get_sign a then b else a.

Definition Tablets := list (float * float).

(** Two numbers name the same property when they print alike. *)
Definition key_eqb (a b : float) : bool := (a =? b) || (is_nan a && is_nan b).

Fixpoint obj_set (t : Tablets) (k v : float) : Tablets :=
  match t with
  | [] => [(k, v)]
  | (k', v') :: t' =>
      if key_eqb k' k then (k', v) :: t' else (k', v') :: obj_set t' k v
  end.

Definition allocate_step (acc : Tablets * float) (strength : float) : Tablets * float :=
  let '(tablets, remaining) := acc in
  let rawCount := remaining / strength in
  let count := max 0 (floor (rawCount * 2) / 2) in
  let tablets := obj_set tablets strength count in
  let remaining := remaining - count * strength in
  let remaining := round (remaining * 100) / 100 in
  (tablets, remaining).

Definition allocateTablets (total : float) (strengths : list float) : Tablets * float :=
  fold_left allocate_step strengths ([], total).

(** The double nearest to a rational with numerator and denominator below
    2^53. *)
Definition of_Z (z : Z) : float :=
  match z with
  | Z0 => 0
  | Zpos p => of_uint63 (Uint63.of_Z (Zpos p))
  | Zneg p => - of_uint63 (Uint63.of_Z (Zpos p))
  end.

Definition of_Q (q : Q) : float := of_Z (Qnum q) / of_Z (Zpos (Qden q)).

Fixpoint tablets_eqb (t u : Tablets) : bool :=
  match t, u with
  | [], [] => true
  | (k, v) :: t', (k', v') :: u' => (k =? k') && (v =? v') && tablets_eqb t' u'
  | _, _ => false
  end.

(** A count that is not negative and a whole number of half tablets:
    finite, and twice it an integer. *)
Definition half_tablets (c : float) : bool :=
  is_finite c && (0 <=? c) && (floor (c * 2) =? c * 2).


End F64.

(** The run on doubles gives what the run on rationals gives. *)
Definition binary64_agrees (D : Q) (S : list Q) : bool :=
  let '(t, r) := F64.allocateTablets (F64.of_Q D) (map F64.of_Q S) in
  let a := allocateTablets D S in
  F64.tablets_eqb t (map (fun e => (F64.of_Q (fst e), F64.of_Q (snd e))) (tablets a))
  && PrimFloat.eqb r (F64.of_Q (remainder a)).

(** ** Application state

    The strengths array is an object on the heap and [state.strengths] a
    reference to it, so that replacing the array can be told apart from
    changing it in place.  [segmentId] is the module-level counter. *)

Abbreviation loc := nat.
Abbreviation Heap := (gmap nat (list Q)).

Module Segment.
Record t := mk { id : nat; days : Q; frequency : string; tablets : Tablets }.
End Segment.
Abbreviation Segment := Segment.t.

Inductive Mode := Mg | Tablet.

Record AutoConfig := mkAuto {
  startDose : Q;
  stepDays : Q;
  mode : Mode;
  stepMg : Q;
  stepStrength : Q;
  stepTablets : Q;
  lastRemainder : option Q
}.

Inductive Medication := prednisolone | prednisone | dexamethasone.

Record AppState := mkState {
  medication : Medication;
  useDates : bool;
  startDate : string;
  strengths : loc;
  customStrength : string;
  segments : list Segment;
  auto : AutoConfig;
  handoutReady : bool
}.

Record World := mkWorld {
  heap : Heap;
  segmentId : nat;
  state : AppState
}.

(** The array a reference points to. *)
Definition read (h : Heap) (l : loc) : list Q := default [] (h !! l).

(** A new array object. *)
Definition alloc (h : Heap) (a : list Q) : Heap * loc :=
  let l := fresh (dom h) in (<[l := a]> h, l).

(** [createSegment]: takes the next id and copies the tablets object. *)
Definition createSegment (next : nat) (days : Q) (frequency : string)
    (tablets : Tablets) : Segment * nat :=
  (Segment.mk next days frequency tablets, S next).

(** [new Set(values)]: the distinct values in order of first occurrence. *)
Definition set_add (seen : list Q) (x : Q) : list Q :=
  if existsb (Qeq_bool x) seen then seen else seen ++ [x].

Definition set_of (values : list Q) : list Q := fold_left set_add values [].

(** [unique.sort((a, b) => b - a)]: a stable sort, largest first. *)
Fixpoint insert_desc (x : Q) (l : list Q) : list Q :=
  match l with
  | [] => [x]
  | y :: l' => if Qle_bool y x then x :: y :: l' else y :: insert_desc x l'
  end.

Definition sort_desc (l : list Q) : list Q := foldr insert_desc [] l.

(** The tablets object [normalizeStrengths] builds for one segment:
    [nextTablets[strength] = Number(segment.tablets[strength] || 0)]. *)
Definition next_tablets (unique : list Q) (old : Tablets) : Tablets :=
  fold_left (fun next strength => obj_set next strength (default 0 (obj_get old strength)))
            unique [].

Definition normalizeStrengths (w : World) : World :=
  let st := state w in
  let unique := sort_desc (set_of (read (heap w) (strengths st))) in
  let '(h, l) := alloc (heap w) unique in
  let segs :=
    map (fun s => Segment.mk (Segment.id s) (Segment.days s) (Segment.frequency s)
                    (next_tablets unique (Segment.tablets s)))
        (segments st) in
  mkWorld h (segmentId w)
    (mkState (medication st) (useDates st) (startDate st) l (customStrength st)
       segs (auto st) (handoutReady st)).

(** The closure [decrement] of [generateAutoSchedule]. *)
Definition decrement (a : AutoConfig) : Q :=
  match mode a with
  | Mg => Num.max 0 (Num.or_else (stepMg a) 0)
  | Tablet =>
      let strength := Num.or_else (stepStrength a) 0 in
      let count := Num.or_else (stepTablets a) 0 in
      Num.mul strength count
  end.

(** The variables of the [while] loop.  [allocated] is a ghost variable:
    the doses handed to [allocateTablets], in order. *)
Record LoopState := mkLoop {
  dose : Q;
  rem : option Q;
  segs : list Segment;
  nextId : nat;
  allocated : list Q
}.

(** One pass of the loop.  [dose - step] is the difference itself: the
    double of the code where start dose and decrement are multiples of
    0.25 mg, which subtract exactly; elsewhere the code rounds it (from
    2 mg by 0.4 mg it is left with 1.1e-16 mg after five steps and builds
    a sixth). *)
Definition loop_body (stepDays step : Q) (strengths : list Q) (ls : LoopState) : LoopState :=
  let a := allocateTablets (dose ls) strengths in
  let '(segment, next) :=
    createSegment (nextId ls) stepDays "Once daily (od)" (tablets a) in
  mkLoop (Num.max 0 (Num.sub (dose ls) step)) (Some (remainder a))
         (segs ls ++ [segment]) next (allocated ls ++ [dose ls]).

(** [while (dose > 0 && guard < 200)], by recursion on [200 - guard]. *)
Fixpoint taper_loop (budget : nat) (stepDays step : Q) (strengths : list Q)
    (ls : LoopState) : LoopState :=
  match budget with
  | O => ls
  | S budget' =>
      if Num.gtb (dose ls) 0
      then taper_loop budget' stepDays step strengths (loop_body stepDays step strengths ls)
      else ls
  end.

(** The loop of [generateAutoSchedule], run on a normalized world. *)
Definition run_loop (w : World) : LoopState :=
  let a := auto (state w) in
  let stepDays := Num.max 1 (Num.or_else (stepDays a) 1) in
  let dose := Num.max 0 (Num.or_else (startDose a) 0) in
  taper_loop 200 stepDays (decrement a) (read (heap w) (strengths (state w)))
             (mkLoop dose None [] (segmentId w) []).

Definition generateAutoSchedule (w0 : World) : World :=
  let w := normalizeStrengths w0 in
  let st := state w in
  let a := auto st in
  let ls := run_loop w in
  let a' := mkAuto (startDose a) (stepDays a) (mode a) (stepMg a) (stepStrength a)
                   (stepTablets a) (rem ls) in
  let segments' := match segs ls with [] => segments st | _ :: _ => segs ls end in
  mkWorld (heap w) (nextId ls)
    (mkState (medication st) (useDates st) (startDate st) (strengths st)
       (customStrength st) segments' a' false).

(** The doses [generateAutoSchedule] hands to the allocator. *)
Definition allocated_doses (w0 : World) : list Q :=
  allocated (run_loop (normalizeStrengths w0)).

(** [getInitialState], with the strengths array at address 0. *)
Definition initial_world : World :=
  mkWorld {[ 0%nat := [25; 5] ]} 4
    (mkState prednisolone true "" 0%nat ""
       [ Segment.mk 1 3 "Once daily (od)" [(25, 1); (5, 1)];
         Segment.mk 2 3 "Once daily (od)" [(25, 1); (5, 0)];
         Segment.mk 3 3 "Once daily (od)" [(25, 0); (5, 4)] ]
       (mkAuto 30 3 Mg 5 5 1 None) false).

(** ** Vocabulary of the statements *)

(** The count [allocateTablets] gives one strength, and the remaining dose
    it goes on with. *)
Definition tablet_count (remaining strength : Q) : Q :=
  Num.max 0 (Num.div (Num.floor (Num.mul (Num.div remaining strength) 2)) 2).

Definition round2 (x : Q) : Q := Num.div (Num.round (Num.mul x 100)) 100.

Definition next_remaining (r s : Q) : Q :=
  round2 (Num.sub r (Num.mul (tablet_count r s) s)).

(** Strengths as the strength form admits them: positive, and (after
    [normalizeStrengths]) without repetition. *)
Definition positive (S : list Q) : bool := forallb (fun s => Num.gtb s 0) S.

Fixpoint distinct (S : list Q) : bool :=
  match S with
  | [] => true
  | s :: S' => negb (existsb (Qeq_bool s) S') && distinct S'
  end.

Definition has_key (t : Tablets) (k : Q) : bool :=
  existsb (fun k' => Qeq_bool k' k) (map fst t).

Definition counts (t : Tablets) : list Q := map snd t.

(** A whole number of half tablets. *)
Definition half_tablets (c : Q) : Prop := exists k : Z, c == inject_Z k * (1 # 2).

(** The steps a run of [generateAutoSchedule] builds (its local [segments]). *)
Definition generated_steps (w0 : World) : list Segment :=
  segs (run_loop (normalizeStrengths w0)).

(** What the specification calls a step: days, frequency and tablets. *)
Definition step_view (s : Segment) : Q * string * Tablets :=
  (Segment.days s, Segment.frequency s, Segment.tablets s).

(** Doses that never go up from one step to the next. *)
Fixpoint nonincreasing (l : list Q) : Prop :=
  match l with
  | a :: (b :: _) as l' => b <= a /\ nonincreasing l'
  | _ => True
  end.

(** A world like [initial_world] with another strengths array and another
    taper configuration. *)
Definition world_with (strengths : list Q) (a : AutoConfig) : World :=
  mkWorld {[ 0%nat := strengths ]} (segmentId initial_world)
    (mkState prednisolone true "" 0%nat "" (segments (state initial_world)) a false).

(** "Reduce by tablets", one 5 mg tablet a step, typed as -1 tablet. *)
Definition negative_step_config : AutoConfig := mkAuto 10 3 Tablet 5 5 (-1) None.

(** The strengths array as [normalizeStrengths] leaves it. *)
Definition normalized_strengths (w : World) : list Q :=
  sort_desc (set_of (read (heap w) (strengths (state w)))).

(** Every segment is keyed by the normalized strengths, in their order:
    the form [normalizeStrengths] gives the segments, and the one the
    step handlers keep. *)
Definition segments_keyed (w : World) : Prop :=
  Forall (fun s => map fst (Segment.tablets s) = normalized_strengths w)
         (segments (state w)).

(** A state whose only segment still counts a tablet of a strength (25 mg)
    that is not among the strengths any more, with start dose 0. *)
Definition stale_world : World :=
  mkWorld {[ 0%nat := [5] ]} 2
    (mkState prednisolone true "" 0%nat ""
       [ Segment.mk 1 3 "Once daily (od)" [(25, 1)] ]
       (mkAuto 0 3 Mg 5 5 1 (Some 2)) false).

(** Largest first. *)
Fixpoint sorted_desc (l : list Q) : bool :=
  match l with
  | a :: (b :: _) as l' => Qle_bool b a && sorted_desc l'
  | _ => true
  end.


(** A whole number of hundredths of a milligram. *)
Definition whole_cents (x : Q) : bool :=
  Qeq_bool (inject_Z (Qfloor (x * 100))) (x * 100).

(** Strengths whose half tablets are whole hundredths. *)
Definition half_cents (S : list Q) : bool := forallb (fun s => whole_cents (s / 2)) S.

(** *** The grid on which the doubles are exact *)

(** The largest dose and strength of the statements, in mg. *)
Definition limit : Q := 1000000000.

Definition multiple_of (unit x : Q) : bool :=
  Qeq_bool (inject_Z (Qfloor (x / unit))) (x / unit).

(** A dose of 0 to [limit] mg in steps of 0.25 mg. *)
Definition grid_dose (D : Q) : bool :=
  Qle_bool 0 D && Qle_bool D limit && multiple_of (1 # 4) D.

(** A strength of 0.5 to [limit] mg in steps of 0.5 mg. *)
Definition grid_strength (s : Q) : bool :=
  Num.gtb s 0 && Qle_bool s limit && multiple_of (1 # 2) s.

Definition grid_strengths (S : list Q) : bool := forallb grid_strength S.

(** A decrement in steps of 0.25 mg, of either sign. *)
Definition grid_step (x : Q) : bool :=
  Qle_bool (- limit) x && Qle_bool x limit && multiple_of (1 # 4) x.


(** The selections of a list, in its order. *)
Fixpoint sublists {A : Type} (l : list A) : list (list A) :=
  match l with
  | [] => [[]]
  | x :: l' => map (cons x) (sublists l') ++ sublists l'
  end.

(** [k] quarters of a milligram. *)
Definition quarter_mg (k : nat) : Q := Num.div (inject_Z (Z.of_nat k)) 4.

(** Inputs drawn from all over the grid, to replay the allocator on
    doubles away from the offered strengths: a linear congruential walk
    gives each dose and each strength its size, up to 31 bits, and its
    digits. *)
Definition walk (x : Z) : Z := ((x * 25214903917 + 11) mod 2 ^ 48)%Z.

Definition draw (x : Z) : Z := ((x / 2 ^ 8) mod 2 ^ ((x / 2 ^ 40) mod 32))%Z.

Definition drawn_dose (x : Z) : Q :=
  let D := Qred (draw x # 4) in if Qle_bool D limit then D else limit.

Definition drawn_strength (x : Z) : Q :=
  let s := Qred ((draw x + 1) # 2) in if Qle_bool s limit then s else limit.

Fixpoint samples (n : nat) (x : Z) : list (Q * list Q) :=
  match n with
  | O => []
  | S n =>
      let x1 := walk x in
      let x2 := walk x1 in
      let x3 := walk x2 in
      let x4 := walk x3 in
      (drawn_dose x1, [drawn_strength x2; drawn_strength x3; drawn_strength x4])
      :: samples n x4
  end.

(** The start dose and the step length as [generateAutoSchedule] clamps
    them. *)
Definition clamped_start (a : AutoConfig) : Q := Num.max 0 (Num.or_else (startDose a) 0).
Definition clamped_days (a : AutoConfig) : Q := Num.max 1 (Num.or_else (stepDays a) 1).

(** A taper configuration whose clamped start dose and decrement are on
    the grid. *)
Definition grid_config (a : AutoConfig) : bool :=
  grid_dose (clamped_start a) && grid_step (decrement a).

(** ** The day-by-day schedule *)

Module Row.
Record t := mk {
  day : nat;
  week : nat;
  date : option string;
  doseText : string;
  frequency : string
}.
End Row.

(** The passes of [for (let i = 0; i < Number(segment.days || 0); i += 1)]:
    the whole numbers below [days]. *)
Definition day_count (days : Q) : nat := Z.to_nat (Qceiling days).

Section ExpandSchedule.

(** [formatDose] prints numbers and [addDays] goes through [Date]; the
    schedule only passes their results on. *)
Variable formatDose : Tablets -> string.
Variable addDays : string -> nat -> string.

(** One pass of the inner loop, on [dayIndex] and [schedule]. *)
Definition push_row (st : AppState) (segment : Segment) (acc : nat * list Row.t)
    : nat * list Row.t :=
  let dayIndex := S (fst acc) in
  let week := ((dayIndex - 1) / 7 + 1)%nat in
  let date :=
    if useDates st && negb (String.eqb (startDate st) "")
    then Some (addDays (startDate st) (dayIndex - 1)) else None in
  (dayIndex,
   snd acc ++ [Row.mk dayIndex week date (formatDose (Segment.tablets segment))
                      (Segment.frequency segment)]).

(** The body of [state.segments.forEach]. *)
Definition expand_segment (st : AppState) (acc : nat * list Row.t) (segment : Segment)
    : nat * list Row.t :=
  if Qle_bool (totalDose (Segment.tablets segment)) 0 then acc
  else Nat.iter (day_count (Segment.days segment)) (push_row st segment) acc.

Definition expandSchedule (st : AppState) : list Row.t :=
  snd (fold_left (expand_segment st) (segments st) (0%nat, [])).

(** The row of day [dayIndex], taken from [segment]. *)
Definition row_of (st : AppState) (dayIndex : nat) (segment : Segment) : Row.t :=
  Row.mk dayIndex ((dayIndex - 1) / 7 + 1)%nat
    (if useDates st && negb (String.eqb (startDate st) "")
     then Some (addDays (startDate st) (dayIndex - 1)) else None)
    (formatDose (Segment.tablets segment)) (Segment.frequency segment).

End ExpandSchedule.

(** The segment of each day: every segment with a positive total dose, as
    many times as it has days, a part of a day counting as one. *)
Definition schedule_days (l : list Segment) : list Segment :=
  flat_map (fun s => if Qle_bool (totalDose (Segment.tablets s)) 0 then []
                     else replicate (day_count (Segment.days s)) s) l.

(** ** Dates *)

(** [value.split("-")] *)
Fixpoint split_dash (value : string) : list string :=
  match value with
  | EmptyString => [EmptyString]
  | String c rest =>
      if Ascii.eqb c "-" then EmptyString :: split_dash rest
      else match split_dash rest with
           | part :: parts => String c part :: parts
           | [] => [String c EmptyString]
           end
  end.

Definition is_empty (s : string) : bool :=
  match s with EmptyString => true | _ => false end.

Definition formatDateDisplay (value : string) : string :=
  match split_dash value with
  | [year; month; day] =>
      if is_empty year || is_empty month || is_empty day then value
      else (day ++ "/" ++ month ++ "/" ++ year)%string
  | _ => value
  end.

Fixpoint no_dash (s : string) : bool :=
  match s with
  | EmptyString => true
  | String c rest => negb (Ascii.eqb c "-") && no_dash rest
  end.

(** ** Event handlers

    The state changes of [handleClick], [handleInput] and [handleChange].
    What the page supplies comes with the action: texts as strings, and the
    [data-id] and [data-strength] attributes, which [render] writes from
    numbers, as those numbers.  Of [render] only its first statement
    changes the state. *)

Definition DEFAULT_STRENGTHS : list Q := [1; 5 # 2; 5; 10; 20; 25].

Definition DEFAULT_FREQUENCIES : list string :=
  [ "Once daily (od)"; "Twice daily (bd)"; "Three times daily (tds)";
    "Every other day (eod)"; "Morning only (mane)"; "Evening only (nocte)" ]%string.

Definition render (w : World) : World := normalizeStrengths w.

(** Assignments to the fields of [state]. *)
Definition with_state (f : AppState -> AppState) (w : World) : World :=
  mkWorld (heap w) (segmentId w) (f (state w)).

Definition set_medication (v : Medication) (st : AppState) : AppState :=
  mkState v (useDates st) (startDate st) (strengths st) (customStrength st)
          (segments st) (auto st) (handoutReady st).
Definition set_useDates (v : bool) (st : AppState) : AppState :=
  mkState (medication st) v (startDate st) (strengths st) (customStrength st)
          (segments st) (auto st) (handoutReady st).
Definition set_startDate (v : string) (st : AppState) : AppState :=
  mkState (medication st) (useDates st) v (strengths st) (customStrength st)
          (segments st) (auto st) (handoutReady st).
Definition set_strengths (v : loc) (st : AppState) : AppState :=
  mkState (medication st) (useDates st) (startDate st) v (customStrength st)
          (segments st) (auto st) (handoutReady st).
Definition set_customStrength (v : string) (st : AppState) : AppState :=
  mkState (medication st) (useDates st) (startDate st) (strengths st) v
          (segments st) (auto st) (handoutReady st).
Definition set_segments (v : list Segment) (st : AppState) : AppState :=
  mkState (medication st) (useDates st) (startDate st) (strengths st) (customStrength st)
          v (auto st) (handoutReady st).
Definition set_auto (v : AutoConfig) (st : AppState) : AppState :=
  mkState (medication st) (useDates st) (startDate st) (strengths st) (customStrength st)
          (segments st) v (handoutReady st).
Definition set_handoutReady (v : bool) (st : AppState) : AppState :=
  mkState (medication st) (useDates st) (startDate st) (strengths st) (customStrength st)
          (segments st) (auto st) v.

(** [state.strengths.push(strength)]: the array grows in place. *)
Definition push_strength (strength : Q) (w : World) : World :=
  let l := strengths (state w) in
  mkWorld (<[l := read (heap w) l ++ [strength]]> (heap w)) (segmentId w) (state w).

(** [state.strengths = values], a new array. *)
Definition assign_strengths (values : list Q) (w : World) : World :=
  let '(h, l) := alloc (heap w) values in
  mkWorld h (segmentId w) (set_strengths l (state w)).

(** [state.segments.push(createSegment(...))] and the like: the counter
    moves on. *)
Definition new_segment (days : Q) (frequency : string) (tablets : Tablets) (w : World)
    : Segment * World :=
  let '(segment, next) := createSegment (segmentId w) days frequency tablets in
  (segment, mkWorld (heap w) next (state w)).

(** [getInitialState]: a new strengths array and three new segments. *)
Definition getInitialState (w : World) : AppState * World :=
  let '(h, l) := alloc (heap w) [25; 5] in
  let w := mkWorld h (segmentId w) (state w) in
  let '(s1, w) := new_segment 3 "Once daily (od)" [(25, 1); (5, 1)] w in
  let '(s2, w) := new_segment 3 "Once daily (od)" [(25, 1); (5, 0)] w in
  let '(s3, w) := new_segment 3 "Once daily (od)" [(25, 0); (5, 4)] w in
  (mkState prednisolone true "" l "" [s1; s2; s3] (mkAuto 30 3 Mg 5 5 1 None) false, w).

(** [updateSegment]: the first segment with the id, if any. *)
Fixpoint updateSegment (id : nat) (updater : Segment -> Segment) (l : list Segment)
    : list Segment :=
  match l with
  | [] => []
  | s :: l' =>
      if Nat.eqb (Segment.id s) id then updater s :: l'
      else s :: updateSegment id updater l'
  end.

(** [state.segments.findIndex((segment) => segment.id === id)] *)
Fixpoint findIndex (id : nat) (l : list Segment) : option nat :=
  match l with
  | [] => None
  | s :: l' => if Nat.eqb (Segment.id s) id then Some 0%nat else S <$> findIndex id l'
  end.

(** [temp = a[i]; a[i] = a[j]; a[j] = temp], both indices in range. *)
Definition swap (i j : nat) (l : list Segment) : list Segment :=
  match l !! i, l !! j with
  | Some x, Some y => <[j := x]> (<[i := y]> l)
  | _, _ => l
  end.

(** [state.segments.splice(i, 0, segment)] *)
Definition splice_in (i : nat) (s : Segment) (l : list Segment) : list Segment :=
  take i l ++ s :: drop i l.

Section Handlers.

(** [Number(text)]; [None] stands for [NaN]. *)
Variable Number : string -> option Q.

(** [Number(text) || d] *)
Definition number_or (text : string) (d : Q) : Q :=
  match Number text with Some x => Num.or_else x d | None => d end.

Inductive Click :=
| toggle_strength (strength : Q) (checked : bool)
| add_custom_strength
| add_step
| remove (id : nat)
| duplicate (id : nat)
| move_up (id : nat)
| move_down (id : nat)
| run_auto
| clear_steps
| generate_handout
| reset_all.

Definition handleClick (action : Click) (w : World) : World :=
  match action with
  | toggle_strength strength checked =>
      let w :=
        if checked then push_strength strength w
        else assign_strengths
               (filter (fun s => negb (Qeq_bool s strength))
                       (read (heap w) (strengths (state w)))) w in
      let w := normalizeStrengths w in
      render (with_state (set_handoutReady false) w)
  | add_custom_strength =>
      match Number (customStrength (state w)) with
      | Some strength =>
          if Num.gtb strength 0 then
            let w :=
              if existsb (fun s => Qeq_bool s strength)
                         (read (heap w) (strengths (state w)))
              then w else push_strength strength w in
            let w := with_state (set_customStrength "") w in
            let w := normalizeStrengths w in
            render (with_state (set_handoutReady false) w)
          else w
      | None => w
      end
  | add_step =>
      let tablets :=
        fold_left (fun acc strength => obj_set acc strength 0)
                  (read (heap w) (strengths (state w))) [] in
      let '(segment, w) := new_segment 3 "Once daily (od)" tablets w in
      let w := with_state (fun st => set_segments (segments st ++ [segment]) st) w in
      render (with_state (set_handoutReady false) w)
  | remove id =>
      let w :=
        with_state
          (fun st => set_segments
                       (filter (fun s => negb (Nat.eqb (Segment.id s) id)) (segments st)) st)
          w in
      render (with_state (set_handoutReady false) w)
  | duplicate id =>
      match findIndex id (segments (state w)) with
      | Some i =>
          match segments (state w) !! i with
          | Some segment =>
              let '(copy, w) :=
                new_segment (Segment.days segment) (Segment.frequency segment)
                            (Segment.tablets segment) w in
              let w :=
                with_state (fun st => set_segments (splice_in (S i) copy (segments st)) st)
                           w in
              render (with_state (set_handoutReady false) w)
          | None => w
          end
      | None => w
      end
  | move_up id =>
      match findIndex id (segments (state w)) with
      | Some (S j) =>
          let w := with_state (fun st => set_segments (swap (S j) j (segments st)) st) w in
          render (with_state (set_handoutReady false) w)
      | _ => w
      end
  | move_down id =>
      match findIndex id (segments (state w)) with
      | Some i =>
          if Nat.ltb (S i) (length (segments (state w))) then
            let w :=
              with_state (fun st => set_segments (swap i (S i) (segments st)) st) w in
            render (with_state (set_handoutReady false) w)
          else w
      | None => w
      end
  | run_auto => render (generateAutoSchedule w)
  | clear_steps =>
      render (with_state (fun st => set_handoutReady false (set_segments [] st)) w)
  | generate_handout => render (with_state (set_handoutReady true) w)
  | reset_all =>
      let '(next, w) := getInitialState w in
      render (mkWorld (heap w) (segmentId w) next)
  end.

Inductive Input :=
| custom_strength (value : string)
| set_medication_input (value : Medication)
| toggle_dates (checked : bool)
| set_start_date (value : string)
| auto_start (value : string)
| auto_days (value : string)
| auto_mode (value : Mode)
| auto_step_mg (value : string)
| auto_step_strength (value : string)
| auto_step_tablets (value : string).

Definition handleInput (action : Input) (w : World) : World :=
  let a := auto (state w) in
  let set_a a' := with_state (fun st => set_handoutReady false (set_auto a' st)) w in
  match action with
  | custom_strength value => with_state (set_customStrength value) w
  | set_medication_input value =>
      render (with_state (fun st => set_handoutReady false (set_medication value st)) w)
  | toggle_dates checked =>
      render (with_state (fun st => set_handoutReady false (set_useDates checked st)) w)
  | set_start_date value =>
      render (with_state (fun st => set_handoutReady false (set_startDate value st)) w)
  | auto_start value =>
      set_a (mkAuto (number_or value 0) (stepDays a) (mode a) (stepMg a) (stepStrength a)
                    (stepTablets a) (lastRemainder a))
  | auto_days value =>
      set_a (mkAuto (startDose a) (number_or value 1) (mode a) (stepMg a) (stepStrength a)
                    (stepTablets a) (lastRemainder a))
  | auto_mode value =>
      render (set_a (mkAuto (startDose a) (stepDays a) value (stepMg a) (stepStrength a)
                            (stepTablets a) (lastRemainder a)))
  | auto_step_mg value =>
      set_a (mkAuto (startDose a) (stepDays a) (mode a) (number_or value 0) (stepStrength a)
                    (stepTablets a) (lastRemainder a))
  | auto_step_strength value =>
      set_a (mkAuto (startDose a) (stepDays a) (mode a) (stepMg a) (number_or value 0)
                    (stepTablets a) (lastRemainder a))
  | auto_step_tablets value =>
      set_a (mkAuto (startDose a) (stepDays a) (mode a) (stepMg a) (stepStrength a)
                    (number_or value 0) (lastRemainder a))
  end.

Inductive Change :=
| update_days (id : nat) (value : string)
| update_tablet (id : nat) (strength : Q) (value : string)
| update_frequency_select (id : nat) (value : string)
| update_frequency_custom (id : nat) (value : string).

Definition includes (l : list string) (s : string) : bool := existsb (String.eqb s) l.

Definition handleChange (action : Change) (w : World) : World :=
  let update id updater :=
    render (with_state
              (fun st => set_handoutReady false
                           (set_segments (updateSegment id updater (segments st)) st)) w) in
  match action with
  | update_days id value =>
      update id (fun s => Segment.mk (Segment.id s) (number_or value 1)
                                     (Segment.frequency s) (Segment.tablets s))
  | update_tablet id strength value =>
      update id (fun s => Segment.mk (Segment.id s) (Segment.days s) (Segment.frequency s)
                                     (obj_set (Segment.tablets s) strength (number_or value 0)))
  | update_frequency_select id value =>
      update id (fun s =>
        Segment.mk (Segment.id s) (Segment.days s)
          (if String.eqb value "__custom"
           then (if includes DEFAULT_FREQUENCIES (Segment.frequency s) then ""%string
                 else Segment.frequency s)
           else value)
          (Segment.tablets s))
  | update_frequency_custom id value =>
      update id (fun s => Segment.mk (Segment.id s) (Segment.days s) value (Segment.tablets s))
  end.

(** Anything the page can send. *)
Inductive Event :=
| click (action : Click)
| input (action : Input)
| change (action : Change).

Definition handle (e : Event) (w : World) : World :=
  match e with
  | click a => handleClick a w
  | input a => handleInput a w
  | change a => handleChange a w
  end.

(** The state after a run of events, from the first [render]. *)
Definition run (events : list Event) (w : World) : World :=
  fold_left (fun w e => handle e w) events w.

End Handlers.

(** The page offers for toggling only the default strengths. *)
Definition offered (e : Event) : Prop :=
  match e with
  | click (toggle_strength strength _) => In strength DEFAULT_STRENGTHS
  | _ => True
  end.

(** The strengths arrays of a state in which only offered strengths are
    ticked: the selections of the offered strengths, largest first. *)
Definition selections : list (list Q) := sublists (sort_desc DEFAULT_STRENGTHS).

(** The module as loaded: [state = getInitialState()], then [render()]. *)
Definition empty_world : World :=
  mkWorld ∅ 1
    (mkState prednisolone true "" 0%nat "" [] (mkAuto 0 1 Mg 0 0 0 None) false).

Definition loaded_world : World :=
  let '(st, w) := getInitialState empty_world in
  render (mkWorld (heap w) (segmentId w) st).

(** The ids of the segments, in order. *)
Definition ids (w : World) : list nat := map Segment.id (segments (state w)).

(** What every handler leaves behind: the strengths array positive,
    sorted largest first and without repetition; every segment keyed by
    it; the segment ids distinct and below the counter. *)
Record well_formed (w : World) : Prop := {
  wf_array : heap w !! strengths (state w) = Some (normalized_strengths w);
  wf_positive : positive (normalized_strengths w) = true;
  wf_keyed : segments_keyed w;
  wf_ids : NoDup (ids w);
  wf_fresh : Forall (fun i => (i < segmentId w)%nat) (ids w)
}.

(** What [normalizeStrengths] makes of one segment. *)
Definition renormalized (unique : list Q) (s : Segment) : Segment :=
  Segment.mk (Segment.id s) (Segment.days s) (Segment.frequency s)
             (next_tablets unique (Segment.tablets s)).

(** A copy of a segment under another id. *)
Definition copy_of (id : nat) (s : Segment) : Segment :=
  Segment.mk id (Segment.days s) (Segment.frequency s) (Segment.tablets s).

(** The segment [add-step] appends. *)
Definition blank_step (id : nat) (strengths : list Q) : Segment :=
  Segment.mk id 3 "Once daily (od)" (map (fun s => (s, 0)) strengths).

(** * Properties *)

(** ** Numbers *)

Section NumFacts.

Lemma mul_eq a b : Num.mul a b == a * b.
Proof. apply Qred_correct. Qed.
Lemma div_eq a b : Num.div a b == a / b.
Proof. apply Qred_correct. Qed.
Lemma sub_eq a b : Num.sub a b == a - b.
Proof. apply Qred_correct. Qed.
Lemma add_eq a b : Num.add a b == a + b.
Proof. apply Qred_correct. Qed.

Lemma floor_le x : Num.floor x <= x.
Proof. apply Qfloor_le. Qed.

Lemma floor_lt x : x < Num.floor x + 1.
Proof.
  unfold Num.floor. replace 1 with (inject_Z 1) by reflexivity.
  rewrite <- inject_Z_plus. apply Qlt_floor.
Qed.

Lemma round_bounds x : x - (1 # 2) < Num.round x /\ Num.round x <= x + (1 # 2).
Proof.
  unfold Num.round. split.
  - pose proof (floor_lt (x + (1 # 2))) as H. unfold Num.floor in H. lra.
  - apply Qfloor_le.
Qed.

Lemma max_cases a b : (a <= b /\ Num.max a b = b) \/ (b < a /\ Num.max a b = a).
Proof.
  unfold Num.max. destruct (Qle_bool a b) eqn:E.
  - left. split; [ now apply Qle_bool_iff | reflexivity ].
  - right. split; [ | reflexivity ].
    apply Qnot_le_lt. intros H. apply Qle_bool_iff in H. congruence.
Qed.

Lemma gtb_lt a b : Num.gtb a b = true <-> b < a.
Proof.
  unfold Num.gtb. rewrite negb_true_iff. split.
  - intros E. apply Qnot_le_lt. intros H. apply Qle_bool_iff in H. congruence.
  - intros H. destruct (Qle_bool a b) eqn:E; [ | reflexivity ].
    apply Qle_bool_iff in E. lra.
Qed.
End NumFacts.

#[local] Instance floor_proper : Proper (Qeq ==> Qeq) Num.floor.
Proof. intros x y E. unfold Num.floor. now rewrite (Qfloor_comp x y E). Qed.

#[local] Instance round_proper : Proper (Qeq ==> Qeq) Num.round.
Proof.
  intros x y E. unfold Num.round.
  rewrite (Qfloor_comp (x + (1 # 2)) (y + (1 # 2))); [ reflexivity | now rewrite E ].
Qed.

Lemma round2_nonneg x : 0 <= x -> 0 <= round2 x.
Proof.
  intros Hx. unfold round2. rewrite div_eq, mul_eq.
  assert (H : 0 <= Num.round (x * 100)).
  { unfold Num.round. replace 0 with (inject_Z 0) by reflexivity.
    rewrite <- Zle_Qle. change 0%Z with (Qfloor 0). apply Qfloor_resp_le. lra. }
  set (r := Num.round (x * 100)) in *. clearbody r.
  assert (E : r / 100 == r * (1 # 100)) by (unfold Qdiv; reflexivity).
  rewrite E. lra.
Qed.

Lemma tablet_count_nonneg r s : 0 <= tablet_count r s.
Proof.
  unfold tablet_count.
  destruct (max_cases 0 (Num.div (Num.floor (Num.mul (Num.div r s) 2)) 2))
    as [[H E] | [H E]]; rewrite E; lra.
Qed.

Lemma tablet_count_half r s : half_tablets (tablet_count r s).
Proof.
  unfold tablet_count, half_tablets.
  set (k := Qfloor (Num.mul (Num.div r s) 2)).
  assert (Ek : Num.div (Num.floor (Num.mul (Num.div r s) 2)) 2 == inject_Z k * (1 # 2)).
  { rewrite div_eq. unfold Num.floor. fold k. unfold Qdiv. reflexivity. }
  destruct (max_cases 0 (Num.div (Num.floor (Num.mul (Num.div r s) 2)) 2))
    as [[H E] | [H E]]; rewrite E.
  - exists k. exact Ek.
  - exists 0%Z. reflexivity.
Qed.

Lemma tablet_count_fits r s : 0 < s -> 0 <= r -> tablet_count r s * s <= r.
Proof.
  intros Hs Hr. unfold tablet_count.
  destruct (max_cases 0 (Num.div (Num.floor (Num.mul (Num.div r s) 2)) 2))
    as [[H E] | [H E]]; rewrite E; [ | lra ].
  rewrite div_eq, mul_eq, div_eq.
  pose proof (floor_le (r / s * 2)) as Hf.
  set (f := Num.floor (r / s * 2)) in *. clearbody f.
  assert (Eq : r / s * s == r) by (field; lra).
  set (q := r / s) in *. clearbody q.
  assert (E2 : f / 2 == f * (1 # 2)) by (unfold Qdiv; reflexivity).
  rewrite E2.
  assert (Hm : f * s <= q * 2 * s) by (apply Qmult_le_compat_r; lra).
  lra.
Qed.

(** *** Objects *)

Lemma obj_set_fresh t k v : has_key t k = false -> obj_set t k v = t ++ [(k, v)].
Proof.
  induction t as [ | [k' v'] t IH ]; simpl; [ reflexivity | ].
  intros H. apply orb_false_iff in H as [H1 H2]. cbn [fst] in H1.
  rewrite H1. now rewrite IH.
Qed.

Lemma obj_set_keys t k v :
  map fst (obj_set t k v) = if has_key t k then map fst t else map fst t ++ [k].
Proof.
  induction t as [ | [k' v'] t IH ]; [ reflexivity | ].
  cbn [obj_set]. change (has_key ((k', v') :: t) k) with (Qeq_bool k' k || has_key t k).
  destruct (Qeq_bool k' k); cbn; [ reflexivity | ].
  rewrite IH. now destruct (has_key t k).
Qed.

Lemma obj_set_counts (P : Q -> Prop) t k v :
  Forall P (counts t) -> P v -> Forall P (counts (obj_set t k v)).
Proof.
  unfold counts. intros Ht Hv.
  induction t as [ | [k' v'] t IH ]; simpl.
  - now constructor.
  - inversion Ht as [ | ? ? Hv' Ht' ]; subst.
    destruct (Qeq_bool k' k); simpl; constructor; auto.
Qed.

Lemma has_key_app t k v x : has_key (t ++ [(k, v)]) x = has_key t x || Qeq_bool k x.
Proof.
  unfold has_key. rewrite map_app, existsb_app. simpl. now rewrite orb_false_r.
Qed.

Lemma totalDose_app t k v : totalDose (t ++ [(k, v)]) == totalDose t + k * v.
Proof.
  unfold totalDose. rewrite fold_left_app. simpl.
  now rewrite add_eq, mul_eq.
Qed.

(** *** One strength *)

Lemma allocate_step_eq t r s :
  allocate_step (t, r) s = (obj_set t s (tablet_count r s), next_remaining r s).
Proof. reflexivity. Qed.

Lemma next_remaining_nonneg r s : 0 < s -> 0 <= r -> 0 <= next_remaining r s.
Proof.
  intros Hs Hr. apply round2_nonneg. rewrite sub_eq, mul_eq.
  pose proof (tablet_count_fits r s Hs Hr). lra.
Qed.

(** *** The whole list *)

Lemma fold_remainder_nonneg S : forall t r,
  positive S = true -> 0 <= r ->
  forall t' r', fold_left allocate_step S (t, r) = (t', r') -> 0 <= r'.
Proof.
  induction S as [ | s S IH ]; intros t r Hp Hr t' r' Hf; cbn [fold_left] in Hf.
  - now injection Hf as <- <-.
  - simpl in Hp. apply andb_true_iff in Hp as [Hs Hp]. apply gtb_lt in Hs.
    rewrite allocate_step_eq in Hf.
    apply (IH _ _ Hp (next_remaining_nonneg r s Hs Hr) _ _ Hf).
Qed.


Lemma allocate_fold total S :
  allocateTablets total S =
  {| tablets := fst (fold_left allocate_step S ([], total));
     remainder := snd (fold_left allocate_step S ([], total)) |}.
Proof. unfold allocateTablets. now destruct (fold_left _ _ _). Qed.

Lemma has_key_set_same t k v : has_key (obj_set t k v) k = true.
Proof.
  unfold has_key. rewrite obj_set_keys. fold (has_key t k).
  destruct (has_key t k) eqn:E; [ exact E | ].
  rewrite existsb_app. simpl. rewrite (proj2 (Qeq_bool_iff k k)) by reflexivity.
  now rewrite orb_true_r.
Qed.

Lemma has_key_set_mono t k v x : has_key t x = true -> has_key (obj_set t k v) x = true.
Proof.
  unfold has_key. rewrite obj_set_keys. fold (has_key t k).
  destruct (has_key t k); [ trivial | ].
  intros H. rewrite existsb_app, H. reflexivity.
Qed.

Lemma fold_keys S : forall t r x,
  has_key t x = true \/ In x S ->
  has_key (fst (fold_left allocate_step S (t, r))) x = true.
Proof.
  induction S as [ | s S IH ]; intros t r x H; cbn [fold_left].
  - destruct H as [H | []]. exact H.
  - rewrite allocate_step_eq. apply IH.
    destruct H as [H | [-> | H]].
    + left. now apply has_key_set_mono.
    + left. apply has_key_set_same.
    + now right.
Qed.

Lemma tablet_count_zero r s : r == 0 -> tablet_count r s == 0.
Proof.
  intros Hr. unfold tablet_count.
  assert (E : Num.div (Num.floor (Num.mul (Num.div r s) 2)) 2 == 0).
  { rewrite div_eq, mul_eq, div_eq, Hr.
    assert (Z : 0 / s * 2 == 0) by (unfold Qdiv; ring).
    rewrite Z. reflexivity. }
  destruct (max_cases 0 (Num.div (Num.floor (Num.mul (Num.div r s) 2)) 2))
    as [[_ ->] | [_ ->]]; [ exact E | reflexivity ].
Qed.

Lemma next_remaining_zero r s : r == 0 -> next_remaining r s == 0.
Proof.
  intros Hr. unfold next_remaining, round2.
  rewrite div_eq, mul_eq, sub_eq, mul_eq, (tablet_count_zero r s Hr), Hr.
  assert (Z : (0 - 0 * s) * 100 == 0) by ring.
  rewrite Z. reflexivity.
Qed.

Lemma fold_zero S : forall t r,
  r == 0 -> Forall (fun c => c == 0) (counts t) ->
  Forall (fun c => c == 0) (counts (fst (fold_left allocate_step S (t, r))))
  /\ snd (fold_left allocate_step S (t, r)) == 0.
Proof.
  induction S as [ | s S IH ]; intros t r Hr Ht; cbn [fold_left]; [ now split | ].
  rewrite allocate_step_eq. apply IH.
  - now apply next_remaining_zero.
  - apply obj_set_counts; [ assumption | now apply tablet_count_zero ].
Qed.

(** *** Whole hundredths *)

Lemma whole_cents_iff x : whole_cents x = true <-> exists n : Z, x * 100 == inject_Z n.
Proof.
  unfold whole_cents. rewrite Qeq_bool_iff. split.
  - intros H. exists (Qfloor (x * 100)). now symmetry.
  - intros [n Hn]. rewrite (Qfloor_comp _ _ Hn), Qfloor_Z. now symmetry.
Qed.

Lemma round_Z (n : Z) : Num.round (inject_Z n) == inject_Z n.
Proof.
  unfold Num.round.
  assert (E : Qfloor (inject_Z n + (1 # 2)) = n).
  { pose proof (Qfloor_le (inject_Z n + (1 # 2))) as Hl.
    pose proof (Qlt_floor (inject_Z n + (1 # 2))) as Hu.
    set (f := Qfloor _) in *. clearbody f.
    rewrite inject_Z_plus in Hu. change (inject_Z 1) with 1 in Hu.
    assert (inject_Z f < inject_Z (n + 1)).
    { rewrite inject_Z_plus. change (inject_Z 1) with 1. lra. }
    assert (inject_Z (n - 1) < inject_Z f).
    { unfold Z.sub. rewrite inject_Z_plus, inject_Z_opp. change (inject_Z 1) with 1. lra. }
    rewrite <- Zlt_Qlt in *. lia. }
  now rewrite E.
Qed.

Lemma round2_whole_cents x : whole_cents x = true -> round2 x == x.
Proof.
  intros H. apply whole_cents_iff in H as [n Hn].
  unfold round2. rewrite div_eq, mul_eq, Hn, round_Z, <- Hn. field.
Qed.

Lemma next_remaining_whole_cents r s :
  whole_cents r = true -> whole_cents (s / 2) = true ->
  next_remaining r s == r - tablet_count r s * s
  /\ whole_cents (next_remaining r s) = true.
Proof.
  intros Hr Hs.
  assert (Hx : whole_cents (Num.sub r (Num.mul (tablet_count r s) s)) = true).
  { apply whole_cents_iff in Hr as [n Hn]. apply whole_cents_iff in Hs as [m Hm].
    destruct (tablet_count_half r s) as [k Hk].
    apply whole_cents_iff. exists (n - k * m)%Z.
    rewrite sub_eq, mul_eq, Hk.
    unfold Z.sub. rewrite inject_Z_plus, inject_Z_opp, inject_Z_mult, <- Hn, <- Hm.
    field. }
  unfold next_remaining. pose proof (round2_whole_cents _ Hx) as E.
  split.
  - now rewrite E, sub_eq, mul_eq.
  - apply whole_cents_iff. apply whole_cents_iff in Hx as [n Hn].
    exists n. now rewrite E.
Qed.

Lemma fold_exact S : forall t r,
  distinct S = true -> half_cents S = true -> whole_cents r = true ->
  Forall (fun s => has_key t s = false) S ->
  forall t' r', fold_left allocate_step S (t, r) = (t', r') ->
  totalDose t' + r' == totalDose t + r.
Proof.
  induction S as [ | s S IH ]; intros t r Hd Hc Hr Hk t' r' Hf; cbn [fold_left] in Hf.
  - injection Hf as <- <-. reflexivity.
  - simpl in Hd. apply andb_true_iff in Hd as [Hs Hd]. apply negb_true_iff in Hs.
    cbn [half_cents forallb] in Hc. apply andb_true_iff in Hc as [Hcs Hc].
    inversion Hk as [ | ? ? Hks HkS ]; subst.
    rewrite allocate_step_eq, (obj_set_fresh _ _ _ Hks) in Hf.
    destruct (next_remaining_whole_cents r s Hr Hcs) as [E Hr'].
    rewrite (IH _ _ Hd Hc Hr') with (2 := Hf).
    + rewrite totalDose_app, E. ring.
    + rewrite Forall_forall in HkS. apply Forall_forall. intros x Hx.
      rewrite has_key_app, (HkS x Hx). simpl.
      destruct (Qeq_bool s x) eqn:Ex; [ | reflexivity ].
      assert (existsb (Qeq_bool s) S = true); [ | congruence ].
      apply existsb_exists. exists x. split; [ | assumption ].
      now apply list_elem_of_In.
Qed.

(** *** On the grid *)

Lemma multiple_of_iff u x : multiple_of u x = true <-> exists n : Z, x / u == inject_Z n.
Proof.
  unfold multiple_of. rewrite Qeq_bool_iff. split.
  - intros H. exists (Qfloor (x / u)). now symmetry.
  - intros [n Hn]. rewrite (Qfloor_comp _ _ Hn), Qfloor_Z. now symmetry.
Qed.

Lemma quarter_whole_cents x : multiple_of (1 # 4) x = true -> whole_cents x = true.
Proof.
  intros H. apply multiple_of_iff in H as [n Hn]. apply whole_cents_iff.
  exists (25 * n)%Z. rewrite inject_Z_mult, <- Hn. field.
Qed.

Lemma half_half_cents s : multiple_of (1 # 2) s = true -> whole_cents (s / 2) = true.
Proof.
  intros H. apply multiple_of_iff in H as [n Hn]. apply whole_cents_iff.
  exists (25 * n)%Z. rewrite inject_Z_mult, <- Hn. field.
Qed.

Lemma grid_dose_spec D :
  grid_dose D = true -> 0 <= D /\ D <= limit /\ whole_cents D = true.
Proof.
  unfold grid_dose. intros H.
  apply andb_true_iff in H as [H Hq]. apply andb_true_iff in H as [H0 Hl].
  apply Qle_bool_iff in H0, Hl. auto using quarter_whole_cents.
Qed.

Lemma grid_strengths_spec S :
  grid_strengths S = true -> positive S = true /\ half_cents S = true.
Proof.
  unfold grid_strengths, positive, half_cents.
  induction S as [ | s S IH ]; [ now split | ].
  cbn [forallb]. intros H. apply andb_true_iff in H as [Hs HS].
  destruct (IH HS) as [Hp Hc]. rewrite Hp, Hc, !andb_true_r.
  unfold grid_strength in Hs.
  apply andb_true_iff in Hs as [Hs Hh]. apply andb_true_iff in Hs as [Hs _].
  split; [ exact Hs | now apply half_half_cents ].
Qed.


(** The remaining dose stays a whole number of hundredths. *)
Lemma fold_whole_cents S : forall t r,
  half_cents S = true -> whole_cents r = true ->
  forall t' r', fold_left allocate_step S (t, r) = (t', r') -> whole_cents r' = true.
Proof.
  induction S as [ | s S IH ]; intros t r Hc Hr t' r' Hf; cbn [fold_left] in Hf.
  - now injection Hf as <- <-.
  - cbn [half_cents forallb] in Hc. apply andb_true_iff in Hc as [Hcs Hc].
    rewrite allocate_step_eq in Hf. apply (IH _ _ Hc) with (2 := Hf).
    now apply next_remaining_whole_cents.
Qed.

(** Nothing is rounded away on the grid: tablets and remainder add up to
    the dose. *)
Lemma allocate_grid_exact D S :
  grid_dose D = true -> grid_strengths S = true -> distinct S = true ->
  let a := allocateTablets D S in
  totalDose (tablets a) + remainder a == D /\ 0 <= remainder a.
Proof.
  intros HD HS Hd a. subst a.
  apply grid_dose_spec in HD as (H0 & _ & Hc).
  apply grid_strengths_spec in HS as [Hp Hh].
  rewrite allocate_fold. cbn [tablets remainder].
  destruct (fold_left allocate_step S ([], D)) as [t' r'] eqn:Hf. cbn [fst snd].
  split.
  - rewrite (fold_exact S [] D Hd Hh Hc) with (2 := Hf).
    + change (totalDose []) with 0. ring.
    + apply Forall_forall. reflexivity.
  - exact (fold_remainder_nonneg S [] D Hp H0 t' r' Hf).
Qed.

(** ** Claims about the allocator *)

Example allocate_30 :
  allocateTablets 30 [25; 5] = {| tablets := [(25, 1); (5, 1)]; remainder := 0 |}.
Proof. reflexivity. Qed.

Example allocate_27 :
  allocateTablets 27 [25; 5] = {| tablets := [(25, 1); (5, 0)]; remainder := 2 |}.
Proof. reflexivity. Qed.

(** The runs on rationals used as examples below are the runs on doubles:
    the allocations of the two examples above, of the witnesses, and of
    every dose the generator examples allocate. *)
Lemma binary64_replay :
  forallb (fun d => binary64_agrees d [25; 5]) [30; 27; 0] = true
  /\ binary64_agrees (35 # 2) [10; 5; 1] = true
  /\ forallb (fun d => binary64_agrees d [10; 5]) [15; 10; 5] = true
  /\ binary64_agrees 10 [5] = true
  /\ forallb (fun d => binary64_agrees d [25; 5])
             (allocated_doses (world_with [25; 5] negative_step_config)) = true
  /\ forallb (fun d => binary64_agrees d [25; 5]) (allocated_doses initial_world) = true.
Proof. repeat split; vm_compute; reflexivity. Qed.

(** A strength of 0 takes the doubles out of the finite numbers: the
    count is [Infinity] and the remainder [NaN].  Hence the positive
    strengths in the statements below. *)
Lemma binary64_zero_strength :
  F64.allocateTablets (F64.of_Q 10) [F64.of_Q 0]
  = ([(F64.of_Q 0, PrimFloat.infinity)], PrimFloat.nan).
Proof. vm_compute. reflexivity. Qed.

(** Off the grid the doubles round and the two embeddings part: of
    0.7 mg over the strength 0.1 the code makes 6.5 tablets and leaves
    0.05 mg, where exact arithmetic makes 7 tablets; and past 2^53 even
    whole milligrams are not exact: 9007199254740994 mg over 25 and 5
    leave 1 mg where exact arithmetic leaves 1.5 mg. *)
Lemma binary64_rounds_off_grid :
  F64.allocateTablets (F64.of_Q (7 # 10)) [F64.of_Q (1 # 10)]
  = ([(F64.of_Q (1 # 10), F64.of_Q (13 # 2))], F64.of_Q (1 # 20))
  /\ allocateTablets (7 # 10) [1 # 10] = {| tablets := [(1 # 10, 7)]; remainder := 0 |}
  /\ grid_dose (7 # 10) = false
  /\ snd (F64.allocateTablets (F64.of_Q 9007199254740994) [F64.of_Q 25; F64.of_Q 5])
     = F64.of_Q 1
  /\ remainder (allocateTablets 9007199254740994 [25; 5]) = 3 # 2
  /\ grid_dose 9007199254740994 = false.
Proof. repeat split; vm_compute; reflexivity. Qed.

(** On the grid they agree, also away from the offered strengths and up
    to [limit]: four thousand doses with three strengths each, drawn from
    all over the grid. *)
Lemma binary64_grid_samples :
  forallb (fun e => grid_dose (fst e) && grid_strengths (snd e)
                    && binary64_agrees (fst e) (snd e))
          (samples 4000 1) = true.
Proof. vm_cast_no_check (eq_refl true). Qed.











(** C8.  A requested dose of 0 gives every strength the count 0 and leaves
    the remainder 0; an empty strengths list gives no tablets and leaves the
    whole requested dose as the remainder.  [allocateTablets] is total:
    there is no error to raise. *)
Theorem allocate_edge_cases (D : Q) (S : list Q) :
  positive S = true ->
  (let a := allocateTablets 0 S in
   Forall (fun s => has_key (tablets a) s = true) S
   /\ Forall (fun c => c == 0) (counts (tablets a))
   /\ remainder a == 0)
  /\ allocateTablets D [] = {| tablets := []; remainder := D |}.
Proof.
  intros _. split; [ | reflexivity ].
  cbv zeta. rewrite allocate_fold. cbn [tablets remainder].
  destruct (fold_zero S [] 0) as [Hc Hr]; [ reflexivity | constructor | ].
  repeat split; [ | exact Hc | exact Hr ].
  apply Forall_forall. intros x Hx. apply fold_keys. right.
  now apply list_elem_of_In.
Qed.

Lemma allocate_edge_cases_witness :
  positive [25; 5] = true /\
  (let a := allocateTablets 0 [25; 5] in
   Forall (fun s => has_key (tablets a) s = true) [25; 5]
   /\ Forall (fun c => c == 0) (counts (tablets a))
   /\ remainder a == 0)
  /\ allocateTablets 40 [] = {| tablets := []; remainder := 40 |}.
Proof.
  split; [ reflexivity | apply (allocate_edge_cases 40 [25; 5]) ].
  reflexivity.
Defined.

(** ** The generator *)

Lemma normalize_auto w : auto (state (normalizeStrengths w)) = auto (state w).
Proof. reflexivity. Qed.

Lemma normalize_segmentId w : segmentId (normalizeStrengths w) = segmentId w.
Proof. reflexivity. Qed.

Lemma normalize_read w :
  read (heap (normalizeStrengths w)) (strengths (state (normalizeStrengths w)))
  = sort_desc (set_of (read (heap w) (strengths (state w)))).
Proof.
  destruct w as [h n st]. unfold normalizeStrengths, alloc, read. cbn.
  now rewrite lookup_insert_eq.
Qed.

Lemma normalize_frame w (l : loc) (arr : list Q) :
  heap w !! l = Some arr -> heap (normalizeStrengths w) !! l = Some arr.
Proof.
  destruct w as [h n st]. unfold normalizeStrengths, alloc. cbn [heap]. intros H.
  rewrite lookup_insert_ne; [ exact H | ].
  intros E. apply (is_fresh (dom h)). rewrite E. apply elem_of_dom. now exists arr.
Qed.

Lemma run_loop_normalize w :
  run_loop (normalizeStrengths w) =
  taper_loop 200
    (Num.max 1 (Num.or_else (stepDays (auto (state w))) 1))
    (decrement (auto (state w)))
    (sort_desc (set_of (read (heap w) (strengths (state w)))))
    (mkLoop (Num.max 0 (Num.or_else (startDose (auto (state w))) 0)) None []
            (segmentId w) []).
Proof. unfold run_loop. now rewrite normalize_read. Qed.

Lemma generate_segments w :
  segments (state (generateAutoSchedule w)) =
  match generated_steps w with
  | [] => segments (state (normalizeStrengths w))
  | _ :: _ => generated_steps w
  end.
Proof. reflexivity. Qed.

Lemma generate_lastRemainder w :
  lastRemainder (auto (state (generateAutoSchedule w)))
  = rem (run_loop (normalizeStrengths w)).
Proof. reflexivity. Qed.

Lemma generate_heap w : heap (generateAutoSchedule w) = heap (normalizeStrengths w).
Proof. reflexivity. Qed.

Section Loop.
Variables (stepDays step : Q) (strengths : list Q).

Lemma loop_body_segs ls :
  segs (loop_body stepDays step strengths ls) =
  segs ls ++ [Segment.mk (nextId ls) stepDays "Once daily (od)"
                (tablets (allocateTablets (dose ls) strengths))].
Proof. reflexivity. Qed.

Lemma loop_length n : forall ls,
  (length (segs (taper_loop n stepDays step strengths ls)) <= length (segs ls) + n)%nat.
Proof.
  induction n as [ | n IH ]; intros ls; cbn [taper_loop]; [ lia | ].
  destruct (Num.gtb (dose ls) 0); [ | lia ].
  etransitivity; [ apply IH | ].
  rewrite loop_body_segs, length_app. simpl. lia.
Qed.

(** The ghost list records exactly the doses the segments were allocated
    for. *)
Lemma loop_allocated n : forall ls,
  map Segment.tablets (segs ls)
    = map (fun d => tablets (allocateTablets d strengths)) (allocated ls) ->
  map Segment.tablets (segs (taper_loop n stepDays step strengths ls))
    = map (fun d => tablets (allocateTablets d strengths))
          (allocated (taper_loop n stepDays step strengths ls)).
Proof.
  induction n as [ | n IH ]; intros ls H; cbn [taper_loop]; [ exact H | ].
  destruct (Num.gtb (dose ls) 0); [ | exact H ].
  apply IH. rewrite loop_body_segs. cbn [loop_body createSegment allocated].
  rewrite !map_app, H. reflexivity.
Qed.
End Loop.

(** ** Normalization *)

Lemma existsb_insert_desc (p : Q -> bool) x l :
  existsb p (insert_desc x l) = p x || existsb p l.
Proof.
  induction l as [ | y l IH ]; [ reflexivity | ].
  cbn [insert_desc]. destruct (Qle_bool y x); [ reflexivity | ].
  cbn [existsb]. rewrite IH. now destruct (p x), (p y).
Qed.

Lemma distinct_insert_desc x l :
  distinct (insert_desc x l) = negb (existsb (Qeq_bool x) l) && distinct l.
Proof.
  induction l as [ | y l IH ]; [ reflexivity | ].
  cbn [insert_desc]. destruct (Qle_bool y x); [ reflexivity | ].
  cbn [distinct existsb]. rewrite IH, existsb_insert_desc, (Qeq_bool_comm y x).
  destruct (Qeq_bool x y), (existsb (Qeq_bool y) l), (existsb (Qeq_bool x) l);
    reflexivity.
Qed.

Lemma existsb_sort_desc (p : Q -> bool) l : existsb p (sort_desc l) = existsb p l.
Proof.
  induction l as [ | x l IH ]; [ reflexivity | ].
  cbn [sort_desc foldr]. fold (sort_desc l).
  now rewrite existsb_insert_desc, IH.
Qed.

Lemma distinct_sort_desc l : distinct (sort_desc l) = distinct l.
Proof.
  induction l as [ | x l IH ]; [ reflexivity | ].
  cbn [sort_desc foldr]. fold (sort_desc l).
  now rewrite distinct_insert_desc, existsb_sort_desc, IH.
Qed.

Lemma distinct_snoc l x :
  distinct l = true -> existsb (Qeq_bool x) l = false -> distinct (l ++ [x]) = true.
Proof.
  induction l as [ | y l IH ]; intros Hd Hx; [ reflexivity | ].
  cbn [distinct app existsb] in *.
  apply andb_true_iff in Hd as [Hy Hd]. apply orb_false_iff in Hx as [Hxy Hx].
  rewrite existsb_app. cbn [existsb]. rewrite (Qeq_bool_comm y x), Hxy, orb_false_r.
  now rewrite Hy, IH.
Qed.

Lemma distinct_set_of l : distinct (set_of l) = true.
Proof.
  unfold set_of. 
  assert (H : forall acc, distinct acc = true -> distinct (fold_left set_add l acc) = true).
  { induction l as [ | x l IH ]; intros acc Hacc; [ exact Hacc | ].
    cbn [fold_left]. apply IH. unfold set_add.
    destruct (existsb (Qeq_bool x) acc) eqn:E; [ exact Hacc | ].
    now apply distinct_snoc. }
  now apply H.
Qed.

Lemma distinct_normalized w : distinct (normalized_strengths w) = true.
Proof. unfold normalized_strengths. rewrite distinct_sort_desc. apply distinct_set_of. Qed.

Lemma distinct_app_head l x l' :
  distinct (l ++ x :: l') = true -> existsb (fun k' => Qeq_bool k' x) l = false.
Proof.
  induction l as [ | y l IH ]; intros H; [ reflexivity | ].
  cbn [distinct app existsb] in *. apply andb_true_iff in H as [Hy H].
  rewrite (IH H), orb_false_r.
  apply negb_true_iff in Hy. rewrite existsb_app in Hy.
  apply orb_false_iff in Hy as [_ Hy]. cbn [existsb] in Hy.
  now apply orb_false_iff in Hy as [Hy _].
Qed.

Lemma obj_get_app pre rest k :
  has_key pre k = false -> obj_get (pre ++ rest) k = obj_get rest k.
Proof.
  induction pre as [ | [k' v'] pre IH ]; intros H; [ reflexivity | ].
  change (has_key ((k', v') :: pre) k) with (Qeq_bool k' k || has_key pre k) in H.
  apply orb_false_iff in H as [H1 H2]. cbn [app obj_get]. rewrite H1. now apply IH.
Qed.

(** Rebuilding a tablets object over its own keys gives it back. *)
Lemma next_tablets_keyed t :
  distinct (map fst t) = true -> next_tablets (map fst t) t = t.
Proof.
  intros Hd. unfold next_tablets.
  assert (H : forall suf pre, t = pre ++ suf ->
            fold_left (fun next strength =>
                         obj_set next strength (default 0 (obj_get t strength)))
                      (map fst suf) pre = t).
  { induction suf as [ | [k v] suf IH ]; intros pre E.
    - now rewrite E, app_nil_r.
    - cbn [map fold_left fst].
      assert (Hk : has_key pre k = false).
      { unfold has_key. apply (distinct_app_head _ _ (map fst suf)).
        rewrite E, map_app in Hd. exact Hd. }
      rewrite (obj_set_fresh _ _ _ Hk).
      assert (Hg : obj_get t k = Some v).
      { rewrite E, (obj_get_app _ _ _ Hk). cbn [obj_get]. now rewrite Qeq_bool_refl. }
      rewrite Hg. cbn [default]. apply IH. rewrite E, <- app_assoc. reflexivity. }
  apply (H t []). reflexivity.
Qed.

Lemma normalize_keeps_keyed w :
  segments_keyed w -> segments (state (normalizeStrengths w)) = segments (state w).
Proof.
  unfold segments_keyed. intros H.
  change (segments (state (normalizeStrengths w))) with
    (map (fun s => Segment.mk (Segment.id s) (Segment.days s) (Segment.frequency s)
                     (next_tablets (normalized_strengths w) (Segment.tablets s)))
         (segments (state w))).
  induction H as [ | s l Hs Hl IH ]; [ reflexivity | ].
  cbn [map]. rewrite IH. f_equal.
  rewrite <- Hs, next_tablets_keyed.
  - now destruct s.
  - rewrite Hs. apply distinct_normalized.
Qed.

(** Whatever the tablets were, [normalizeStrengths] keeps the segments and
    their ids, days and frequencies. *)
Lemma normalize_segments_meta w :
  map (fun s => (Segment.id s, Segment.days s, Segment.frequency s))
      (segments (state (normalizeStrengths w)))
  = map (fun s => (Segment.id s, Segment.days s, Segment.frequency s))
        (segments (state w)).
Proof.
  change (segments (state (normalizeStrengths w))) with
    (map (fun s => Segment.mk (Segment.id s) (Segment.days s) (Segment.frequency s)
                     (next_tablets (normalized_strengths w) (Segment.tablets s)))
         (segments (state w))).
  rewrite map_map. reflexivity.
Qed.


Lemma Qle_bool_total x y : Qle_bool x y = false -> Qle_bool y x = true.
Proof.
  intros H. apply Qle_bool_iff. destruct (Qlt_le_dec x y) as [L | L]; [ | exact L ].
  assert (Qle_bool x y = true) by (apply Qle_bool_iff; lra). congruence.
Qed.

Lemma sorted_insert_desc x l : sorted_desc l = true -> sorted_desc (insert_desc x l) = true.
Proof.
  induction l as [ | y l IH ]; intros H; [ reflexivity | ].
  cbn [insert_desc]. destruct (Qle_bool y x) eqn:E.
  - cbn [sorted_desc] in *. now rewrite E, H.
  - specialize (IH ltac:(destruct l; [ reflexivity | cbn [sorted_desc] in H;
                                       now apply andb_true_iff in H ])).
    destruct l as [ | z l ].
    + cbn [insert_desc sorted_desc]. now rewrite (Qle_bool_total _ _ E).
    + cbn [insert_desc] in *. cbn [sorted_desc] in H.
      apply andb_true_iff in H as [Hzy H].
      destruct (Qle_bool z x) eqn:E'.
      * cbn [sorted_desc] in *. now rewrite (Qle_bool_total _ _ E), E', H.
      * change (sorted_desc (y :: z :: insert_desc x l))
          with (Qle_bool z y && sorted_desc (z :: insert_desc x l)).
        now rewrite Hzy, IH.
Qed.

Lemma sorted_sort_desc l : sorted_desc (sort_desc l) = true.
Proof.
  induction l as [ | x l IH ]; [ reflexivity | ].
  cbn [sort_desc foldr]. fold (sort_desc l). now apply sorted_insert_desc.
Qed.

Lemma sort_desc_sorted l : sorted_desc l = true -> sort_desc l = l.
Proof.
  induction l as [ | x l IH ]; intros H; [ reflexivity | ].
  cbn [sort_desc foldr]. fold (sort_desc l).
  destruct l as [ | y l ]; [ reflexivity | ].
  cbn [sorted_desc] in H. apply andb_true_iff in H as [Hyx H].
  rewrite (IH H). cbn [insert_desc]. now rewrite Hyx.
Qed.

Lemma set_of_distinct l : distinct l = true -> set_of l = l.
Proof.
  intros Hd. unfold set_of.
  assert (H : forall suf pre, distinct (pre ++ suf) = true ->
                              fold_left set_add suf pre = pre ++ suf).
  { induction suf as [ | x suf IH ]; intros pre H.
    - now rewrite app_nil_r.
    - cbn [fold_left]. unfold set_add at 2.
      pose proof (distinct_app_head _ _ _ H) as Hx.
      assert (E : existsb (Qeq_bool x) pre = false).
      { rewrite <- Hx. clear. induction pre as [ | y pre IH ]; [ reflexivity | ].
        cbn [existsb]. now rewrite IH, Qeq_bool_comm. }
      rewrite E, IH; rewrite <- app_assoc; [ reflexivity | exact H ]. }
  now apply (H l []).
Qed.

(** Normalizing twice is normalizing once. *)
Lemma normalized_normalize w :
  normalized_strengths (normalizeStrengths w) = normalized_strengths w.
Proof.
  unfold normalized_strengths at 1. rewrite normalize_read.
  fold (normalized_strengths w).
  rewrite set_of_distinct by apply distinct_normalized.
  apply sort_desc_sorted. apply sorted_sort_desc.
Qed.

Lemma next_tablets_keys u old : distinct u = true -> map fst (next_tablets u old) = u.
Proof.
  intros Hd. unfold next_tablets.
  assert (H : forall suf pre, distinct (map fst pre ++ suf) = true ->
            map fst (fold_left (fun next strength =>
                         obj_set next strength (default 0 (obj_get old strength)))
                      suf pre) = map fst pre ++ suf).
  { induction suf as [ | k suf IH ]; intros pre H.
    - now rewrite app_nil_r.
    - cbn [fold_left].
      assert (Hk : has_key pre k = false) by apply (distinct_app_head _ _ _ H).
      rewrite (obj_set_fresh _ _ _ Hk), IH; rewrite map_app, <- app_assoc;
        [ reflexivity | exact H ]. }
  now apply (H u []).
Qed.

(** [normalizeStrengths] leaves every segment keyed by the normalized
    strengths. *)
Lemma normalize_establishes_keyed w : segments_keyed (normalizeStrengths w).
Proof.
  unfold segments_keyed. rewrite normalized_normalize.
  change (segments (state (normalizeStrengths w))) with
    (map (fun s => Segment.mk (Segment.id s) (Segment.days s) (Segment.frequency s)
                     (next_tablets (normalized_strengths w) (Segment.tablets s)))
         (segments (state w))).
  apply Forall_forall. intros s Hs. apply list_elem_of_In, in_map_iff in Hs.
  destruct Hs as (s0 & <- & _). cbn [Segment.tablets].
  apply next_tablets_keys, distinct_normalized.
Qed.

(** The steps built carry the allocations of the doses recorded, over the
    normalized strengths. *)
Lemma generated_steps_allocated w :
  map Segment.tablets (generated_steps w)
  = map (fun d => tablets (allocateTablets d (normalized_strengths w)))
        (allocated_doses w).
Proof.
  unfold generated_steps, allocated_doses. rewrite run_loop_normalize.
  now apply loop_allocated.
Qed.

(** ** Doses from step to step *)

Lemma nonincreasing_snoc l a b :
  nonincreasing (l ++ [a]) -> b <= a -> nonincreasing ((l ++ [a]) ++ [b]).
Proof.
  induction l as [ | x l IH ]; intros H Hb.
  - simpl. auto.
  - destruct l as [ | y l ].
    + simpl in *. tauto.
    + cbn [app nonincreasing] in *. destruct H as [Hxy H]. split; [ exact Hxy | ].
      now apply IH.
Qed.

Lemma nonincreasing_prefix l a : nonincreasing (l ++ [a]) -> nonincreasing l.
Proof.
  induction l as [ | x l IH ]; intros H; [ exact I | ].
  destruct l as [ | y l ]; [ exact I | ].
  cbn [app nonincreasing] in *. destruct H as [Hxy H]. split; [ exact Hxy | ].
  now apply IH.
Qed.

Section Monotone.
Variables (stepDays step : Q) (strengths : list Q).
Hypothesis step_nonneg : 0 <= step.

Lemma next_dose_le d : 0 < d -> Num.max 0 (Num.sub d step) <= d.
Proof.
  intros Hd.
  destruct (max_cases 0 (Num.sub d step)) as [[_ ->] | [_ ->]]; [ | lra ].
  rewrite sub_eq. lra.
Qed.

Lemma loop_nonincreasing n : forall ls,
  nonincreasing (allocated ls ++ [dose ls]) ->
  nonincreasing (allocated (taper_loop n stepDays step strengths ls)
                 ++ [dose (taper_loop n stepDays step strengths ls)]).
Proof.
  induction n as [ | n IH ]; intros ls H; cbn [taper_loop]; [ exact H | ].
  destruct (Num.gtb (dose ls) 0) eqn:E; [ | exact H ].
  apply IH. cbn [loop_body createSegment allocated dose].
  apply nonincreasing_snoc; [ exact H | ].
  apply next_dose_le. now apply gtb_lt.
Qed.
End Monotone.

(** Where the decrement is not negative, as always in "mg" mode, the doses
    handed to the allocator never go up. *)
Lemma allocated_nonincreasing w :
  0 <= decrement (auto (state w)) -> nonincreasing (allocated_doses w).
Proof.
  intros H. unfold allocated_doses. rewrite run_loop_normalize.
  eapply nonincreasing_prefix, loop_nonincreasing; [ exact H | exact I ].
Qed.

(** ** Claims about the generator *)

(** C3 (amended).  With start dose 15, steps of 3 days, reduction by 5 mg
    and the strengths 10 and 5, [generateAutoSchedule] leaves exactly three
    steps of 3 days each, allocated for the doses 15, 10 and 5; every dose
    is served by 10 mg tablets alone, in halves: one and a half, one, and a
    half, with no 5 mg tablet. *)
Theorem generate_example_15_10_5 (w : World) :
  read (heap w) (strengths (state w)) = [10; 5] ->
  startDose (auto (state w)) = 15 ->
  stepDays (auto (state w)) = 3 ->
  mode (auto (state w)) = Mg ->
  stepMg (auto (state w)) = 5 ->
  map step_view (segments (state (generateAutoSchedule w))) =
    [ (3, "Once daily (od)"%string, [(10, 3 # 2); (5, 0)]);
      (3, "Once daily (od)"%string, [(10, 1); (5, 0)]);
      (3, "Once daily (od)"%string, [(10, 1 # 2); (5, 0)]) ]
  /\ allocated_doses w = [15; 10; 5].
Proof.
  intros Hs Hstart Hdays Hmode Hmg.
  rewrite generate_segments. unfold generated_steps, allocated_doses.
  rewrite run_loop_normalize, Hs, Hstart, Hdays. unfold decrement. rewrite Hmode, Hmg.
  generalize (segmentId w). intros n. split; vm_compute; reflexivity.
Qed.

Lemma generate_example_15_10_5_witness :
  let w := world_with [10; 5] (mkAuto 15 3 Mg 5 5 1 None) in
  read (heap w) (strengths (state w)) = [10; 5] /\
  map step_view (segments (state (generateAutoSchedule w))) =
    [ (3, "Once daily (od)"%string, [(10, 3 # 2); (5, 0)]);
      (3, "Once daily (od)"%string, [(10, 1); (5, 0)]);
      (3, "Once daily (od)"%string, [(10, 1 # 2); (5, 0)]) ]
  /\ allocated_doses w = [15; 10; 5].
Proof.
  split; [ reflexivity | ].
  apply (generate_example_15_10_5 (world_with [10; 5] (mkAuto 15 3 Mg 5 5 1 None)));
    reflexivity.
Defined.

(** C3 fails as stated: the three steps do not carry the tablets
    {10: 1, 5: 1}, {10: 1, 5: 0}, {10: 0, 5: 1}. *)
Lemma generate_example_15_10_5_counterexample :
  let w := world_with [10; 5] (mkAuto 15 3 Mg 5 5 1 None) in
  map Segment.tablets (segments (state (generateAutoSchedule w)))
    = [ [(10, 3 # 2); (5, 0)]; [(10, 1); (5, 0)]; [(10, 1 # 2); (5, 0)] ]
  /\ map Segment.tablets (segments (state (generateAutoSchedule w)))
    <> [ [(10, 1); (5, 1)]; [(10, 1); (5, 0)]; [(10, 0); (5, 1)] ].
Proof.
  split; [ vm_compute; reflexivity | vm_compute; discriminate ].
Qed.

(** C4, at the failing input.  In "tablet" mode the decrement is the plain
    product of step strength and step tablets: nothing clamps a negative
    factor, and the decrement of [negative_step_config] is -5. *)
Theorem decrement_tablet_not_clamped :
  decrement negative_step_config = -5
  /\ decrement negative_step_config < 0
  /\ forall a, mode a = Tablet ->
       decrement a == Num.or_else (stepStrength a) 0 * Num.or_else (stepTablets a) 0.
Proof.
  split; [ reflexivity | split; [ reflexivity | ] ].
  intros a Ha. unfold decrement. rewrite Ha. apply mul_eq.
Qed.

(** For comparison, the "mg" branch does clamp. *)
Lemma decrement_mg_nonneg a : mode a = Mg -> 0 <= decrement a.
Proof.
  intros Ha. unfold decrement. rewrite Ha.
  destruct (max_cases 0 (Num.or_else (stepMg a) 0)) as [[H ->] | [H ->]]; lra.
Qed.

(** C5.  A run builds at most 200 steps, whatever the state; with start
    dose 10, reduction by 0 mg and the single strength 5 it builds exactly
    200 steps, all alike (two 5 mg tablets, allocated for dose 10), and
    they become the segments of the state. *)
Theorem generate_at_most_200_steps (w : World) :
  (length (generated_steps w) <= 200)%nat
  /\ (read (heap w) (strengths (state w)) = [5] ->
      startDose (auto (state w)) = 10 ->
      mode (auto (state w)) = Mg ->
      stepMg (auto (state w)) = 0 ->
      segments (state (generateAutoSchedule w)) = generated_steps w
      /\ map step_view (generated_steps w) =
           repeat (Num.max 1 (Num.or_else (stepDays (auto (state w))) 1),
                   "Once daily (od)"%string, [(5, 2)]) 200
      /\ allocated_doses w = repeat 10 200).
Proof.
  split.
  - unfold generated_steps, run_loop. apply (loop_length _ _ _ 200).
  - intros Hs Hstart Hmode Hmg.
    rewrite generate_segments. unfold generated_steps, allocated_doses.
    rewrite run_loop_normalize, Hs, Hstart. unfold decrement. rewrite Hmode, Hmg.
    generalize (segmentId w) (Num.max 1 (Num.or_else (stepDays (auto (state w))) 1)).
    intros n d. repeat split; vm_compute; reflexivity.
Qed.

Lemma generate_at_most_200_steps_witness :
  let w := world_with [5] (mkAuto 10 3 Mg 0 5 1 None) in
  (length (generated_steps w) <= 200)%nat
  /\ segments (state (generateAutoSchedule w)) = generated_steps w
  /\ map step_view (generated_steps w) = repeat (3, "Once daily (od)"%string, [(5, 2)]) 200
  /\ allocated_doses w = repeat 10 200.
Proof.
  pose proof (generate_at_most_200_steps (world_with [5] (mkAuto 10 3 Mg 0 5 1 None)))
    as [Hlen Hex].
  split; [ exact Hlen | ].
  apply Hex; reflexivity.
Defined.

(** C6, at the failing input.  In "tablet" mode with -1 step tablets of
    5 mg the decrement is -5 and the allocated dose goes up by 5 mg a step,
    from 10 mg, for all 200 steps. *)
Theorem doses_rise_on_negative_step :
  let w := world_with [25; 5] negative_step_config in
  firstn 3 (allocated_doses w) = [10; 15; 20]
  /\ map (fun s => totalDose (Segment.tablets s))
         (firstn 3 (segments (state (generateAutoSchedule w)))) = [10; 15; 20]
  /\ length (allocated_doses w) = 200%nat
  /\ ~ nonincreasing (allocated_doses w).
Proof.
  repeat split; try (vm_compute; reflexivity).
  intros H.
  assert (E : exists l, allocated_doses (world_with [25; 5] negative_step_config)
                        = 10 :: 15 :: l).
  { eexists. vm_compute. reflexivity. }
  destruct E as [l E]. rewrite E in H. destruct H as [H _].
  revert H. apply Qlt_not_le. reflexivity.
Qed.

(** C9 (amended).  [generateAutoSchedule] leaves the six configuration
    fields of [state.auto] as they were and writes its [lastRemainder];
    every array that was on the heap, the caller's strengths array among
    them, keeps its contents; [state.strengths] is made to refer to a new
    array, the old one without repetitions and sorted largest first.
    [allocateTablets] only reads the strengths it is given. *)
Theorem generate_preserves_inputs (w : World) :
  let w' := generateAutoSchedule w in
  let a := auto (state w) in
  let a' := auto (state w') in
  (startDose a' = startDose a /\ stepDays a' = stepDays a /\ mode a' = mode a
   /\ stepMg a' = stepMg a /\ stepStrength a' = stepStrength a
   /\ stepTablets a' = stepTablets a)
  /\ lastRemainder a' = rem (run_loop (normalizeStrengths w))
  /\ (forall (l : loc) (arr : list Q), heap w !! l = Some arr -> heap w' !! l = Some arr)
  /\ read (heap w') (strengths (state w'))
     = sort_desc (set_of (read (heap w) (strengths (state w)))).
Proof.
  cbv zeta. split; [ repeat split | ]. split; [ reflexivity | ]. split.
  - intros l arr H. rewrite generate_heap. now apply normalize_frame.
  - rewrite generate_heap. apply normalize_read.
Qed.

Lemma generate_preserves_inputs_witness :
  heap initial_world !! 0%nat = Some [25; 5]
  /\ heap (generateAutoSchedule initial_world) !! 0%nat = Some [25; 5].
Proof.
  assert (H : heap initial_world !! 0%nat = Some [25; 5]) by reflexivity.
  split; [ exact H | ].
  exact (proj1 (proj2 (proj2 (generate_preserves_inputs initial_world))) 0%nat [25; 5] H).
Defined.

(** C9 fails as stated: the first run on the initial state changes the
    [auto] record, whose [lastRemainder] goes from [null] to 0. *)
Lemma generate_changes_auto_counterexample :
  lastRemainder (auto (state initial_world)) = None
  /\ lastRemainder (auto (state (generateAutoSchedule initial_world))) = Some 0
  /\ auto (state (generateAutoSchedule initial_world)) <> auto (state initial_world).
Proof.
  split; [ reflexivity | split; [ vm_compute; reflexivity | ] ].
  vm_compute. discriminate.
Qed.

(** With a clamped start dose of 0 the loop builds no step:
    [lastRemainder] becomes [null] and [state.segments] stays as
    [normalizeStrengths], called first, leaves it. *)
Lemma zero_steps (w : World) :
  clamped_start (auto (state w)) == 0 ->
  generated_steps w = []
  /\ lastRemainder (auto (state (generateAutoSchedule w))) = None
  /\ segments (state (generateAutoSchedule w)) = segments (state (normalizeStrengths w)).
Proof.
  intros H0.
  assert (Hloop : run_loop (normalizeStrengths w)
                  = mkLoop (clamped_start (auto (state w))) None [] (segmentId w) []).
  { rewrite run_loop_normalize. unfold clamped_start in *. cbn [taper_loop dose].
    destruct (Num.gtb _ 0) eqn:E; [ | reflexivity ].
    apply gtb_lt in E. lra. }
  assert (Hgen : generated_steps w = []).
  { unfold generated_steps. now rewrite Hloop. }
  split; [ exact Hgen | ]. split.
  - now rewrite generate_lastRemainder, Hloop.
  - now rewrite generate_segments, Hgen.
Qed.

(** ** More about the allocator *)

Lemma binary64_grid_check :
  forallb grid_strengths selections
  && forallb (fun k =>
                let D := quarter_mg k in
                grid_dose D && forallb (fun S => binary64_agrees D S) selections)
             (seq 0 4001) = true.
Proof. vm_cast_no_check (eq_refl true). Qed.

(** X1.  On doubles, for every dose up to 1000 mg in steps of 0.25 mg and
    every selection of the strengths the page offers, largest first,
    [allocateTablets] returns the tablets and the remainder of exact
    arithmetic: these inputs are on the grid, and no operation rounds
    away any of the dose. *)
Theorem binary64_exact_on_offered (k : nat) (S : list Q) :
  (k <= 4000)%nat -> In S selections ->
  grid_dose (quarter_mg k) = true /\ grid_strengths S = true
  /\ binary64_agrees (quarter_mg k) S = true.
Proof.
  intros Hk HS.
  pose proof binary64_grid_check as H.
  apply andb_true_iff in H as [HG H].
  rewrite forallb_forall in HG, H.
  assert (Hin : In k (seq 0 4001)) by (apply in_seq; lia).
  specialize (H k Hin). cbv zeta in H. apply andb_true_iff in H as [Hd H].
  rewrite forallb_forall in H. auto.
Qed.

Lemma binary64_exact_on_offered_witness :
  (150 <= 4000)%nat /\ In [25; 20; 10; 5; 5 # 2; 1] selections
  /\ binary64_agrees (75 # 2) [25; 20; 10; 5; 5 # 2; 1] = true.
Proof.
  assert (Hk : (150 <= 4000)%nat) by lia.
  assert (HS : In [25; 20; 10; 5; 5 # 2; 1] selections) by (left; reflexivity).
  exact (conj Hk (conj HS (proj2 (proj2
           (binary64_exact_on_offered 150 [25; 20; 10; 5; 5 # 2; 1] Hk HS))))).
Defined.

Lemma fold_key_list S : forall t r,
  distinct S = true -> Forall (fun s => has_key t s = false) S ->
  map fst (fst (fold_left allocate_step S (t, r))) = map fst t ++ S.
Proof.
  induction S as [ | s S IH ]; intros t r Hd Hk; cbn [fold_left].
  - now rewrite app_nil_r.
  - simpl in Hd. apply andb_true_iff in Hd as [Hs Hd]. apply negb_true_iff in Hs.
    inversion Hk as [ | ? ? Hks HkS ]; subst.
    rewrite allocate_step_eq, (obj_set_fresh _ _ _ Hks), IH.
    + rewrite map_app, <- app_assoc. reflexivity.
    + exact Hd.
    + rewrite Forall_forall in HkS. apply Forall_forall. intros x Hx.
      rewrite has_key_app, (HkS x Hx). simpl.
      destruct (Qeq_bool s x) eqn:Ex; [ | reflexivity ].
      assert (existsb (Qeq_bool s) S = true); [ | congruence ].
      apply existsb_exists. exists x. split; [ | assumption ].
      now apply list_elem_of_In.
Qed.

(** X2.  For distinct strengths the tablets object has one entry per
    strength, in the order of the strengths given. *)
Theorem allocate_keys (D : Q) (S : list Q) :
  distinct S = true -> map fst (tablets (allocateTablets D S)) = S.
Proof.
  intros Hd. rewrite allocate_fold. cbn [tablets].
  rewrite fold_key_list; [ reflexivity | exact Hd | ].
  apply Forall_forall. reflexivity.
Qed.

Lemma allocate_keys_witness :
  map fst (tablets (allocateTablets 30 [25; 5])) = [25; 5].
Proof. apply (allocate_keys 30 [25; 5]). reflexivity. Defined.

Lemma tablet_count_leftover r s :
  0 < s -> 0 <= r -> r - tablet_count r s * s < s * (1 # 2).
Proof.
  intros Hs Hr. unfold tablet_count.
  pose proof (floor_lt (r / s * 2)) as Hf.
  assert (Eq : r / s * s == r) by (field; lra).
  destruct (max_cases 0 (Num.div (Num.floor (Num.mul (Num.div r s) 2)) 2))
    as [[H E] | [H E]]; rewrite E.
  - rewrite div_eq, mul_eq, div_eq.
    set (f := Num.floor (r / s * 2)) in *. clearbody f.
    set (q := r / s) in *. clearbody q.
    assert (E2 : f / 2 == f * (1 # 2)) by (unfold Qdiv; reflexivity).
    rewrite E2.
    assert (Hm : q * 2 * s < (f + 1) * s) by (apply Qmult_lt_compat_r; lra).
    lra.
  - rewrite div_eq, mul_eq, div_eq in H.
    assert (Hq : 0 <= r / s) by (apply Qle_shift_div_l; lra).
    assert (H0 : 0 <= Num.floor (r / s * 2)).
    { unfold Num.floor. change 0 with (inject_Z (Qfloor 0)). rewrite <- Zle_Qle.
      apply Qfloor_resp_le. lra. }
    set (f := Num.floor (r / s * 2)) in *. clearbody f.
    assert (E2 : f / 2 == f * (1 # 2)) by (unfold Qdiv; reflexivity).
    rewrite E2 in H. lra.
Qed.

Lemma fold_left_snoc {A B} (f : A -> B -> A) l x a :
  fold_left f (l ++ [x]) a = f (fold_left f l a) x.
Proof. now rewrite fold_left_app. Qed.

Lemma remainder_below_half_tablet (D : Q) (S : list Q) (s : Q) :
  grid_dose D = true -> grid_strengths (S ++ [s]) = true ->
  remainder (allocateTablets D (S ++ [s])) < s * (1 # 2).
Proof.
  intros HD HS.
  apply grid_dose_spec in HD as (H0 & _ & Hc).
  apply grid_strengths_spec in HS as [Hp Hh].
  rewrite allocate_fold. cbn [remainder]. rewrite fold_left_snoc.
  unfold positive in Hp. rewrite forallb_app in Hp.
  apply andb_true_iff in Hp as [HpS Hps]. cbn [forallb] in Hps.
  rewrite andb_true_r in Hps. apply gtb_lt in Hps.
  unfold half_cents in Hh. rewrite forallb_app in Hh.
  apply andb_true_iff in Hh as [HhS Hhs]. cbn [forallb] in Hhs.
  rewrite andb_true_r in Hhs.
  destruct (fold_left allocate_step S ([], D)) as [t r] eqn:Hf.
  pose proof (fold_whole_cents S [] D HhS Hc t r Hf) as Hw.
  pose proof (fold_remainder_nonneg S [] D HpS H0 t r Hf) as Hr.
  rewrite allocate_step_eq. cbn [snd].
  destruct (next_remaining_whole_cents r s Hw Hhs) as [E _]. rewrite E.
  exact (tablet_count_leftover r s Hps Hr).
Qed.

(** X3.  What is left over is less than half a tablet of the last
    strength: for a dose that is a multiple of 0.25 mg and strengths that
    are multiples of 0.5 mg, ending in [s], all of at most [limit] mg, the
    remainder is below [s / 2]. *)
Theorem allocate_remainder_below_half_tablet (D : Q) (S : list Q) (s : Q) :
  grid_dose D = true -> grid_strengths (S ++ [s]) = true ->
  remainder (allocateTablets D (S ++ [s])) < s * (1 # 2).
Proof. exact (remainder_below_half_tablet D S s). Qed.

Lemma allocate_remainder_below_half_tablet_witness :
  remainder (allocateTablets 27 ([25] ++ [5])) < 5 * (1 # 2).
Proof.
  apply (allocate_remainder_below_half_tablet 27 [25] 5); reflexivity.
Defined.

(** ** More about the generator *)

Lemma run_loop_clamped w :
  run_loop (normalizeStrengths w) =
  taper_loop 200 (clamped_days (auto (state w))) (decrement (auto (state w)))
    (normalized_strengths w)
    (mkLoop (clamped_start (auto (state w))) None [] (segmentId w) []).
Proof. apply run_loop_normalize. Qed.

Lemma Qceiling_unique (x : Q) (z : Z) :
  inject_Z z - 1 < x -> x <= inject_Z z -> Qceiling x = z.
Proof.
  intros Hl Hu.
  pose proof (Qle_ceiling x) as Hc. pose proof (Qceiling_lt x) as Hc'.
  set (c := Qceiling x) in *. clearbody c.
  unfold Z.sub in Hc'. rewrite inject_Z_plus, inject_Z_opp in Hc'.
  change (inject_Z 1) with 1 in Hc'.
  assert (inject_Z c < inject_Z (z + 1)).
  { rewrite inject_Z_plus. change (inject_Z 1) with 1. lra. }
  assert (inject_Z z < inject_Z (c + 1)).
  { rewrite inject_Z_plus. change (inject_Z 1) with 1. lra. }
  rewrite <- Zlt_Qlt in *. lia.
Qed.

Section Doses.
Variables (stepDays step : Q) (strengths : list Q).

Lemma loop_body_dose ls :
  dose (loop_body stepDays step strengths ls) = Num.max 0 (Num.sub (dose ls) step).
Proof. reflexivity. Qed.

Lemma loop_body_allocated ls :
  allocated (loop_body stepDays step strengths ls) = allocated ls ++ [dose ls].
Proof. reflexivity. Qed.

Lemma loop_body_nextId ls :
  nextId (loop_body stepDays step strengths ls) = S (nextId ls).
Proof. reflexivity. Qed.

Lemma loop_body_rem ls :
  rem (loop_body stepDays step strengths ls)
  = Some (remainder (allocateTablets (dose ls) strengths)).
Proof. reflexivity. Qed.

Lemma next_dose_nonneg d : 0 <= Num.max 0 (Num.sub d step).
Proof. destruct (max_cases 0 (Num.sub d step)) as [[H ->] | [H ->]]; lra. Qed.

(** Ids, days and frequency of the steps built. *)
Lemma loop_meta n : forall ls,
  let r := taper_loop n stepDays step strengths ls in
  exists k : nat,
    nextId r = (nextId ls + k)%nat
    /\ map (fun s => (Segment.id s, Segment.days s, Segment.frequency s)) (segs r)
       = map (fun s => (Segment.id s, Segment.days s, Segment.frequency s)) (segs ls)
         ++ map (fun i => (i, stepDays, "Once daily (od)"%string)) (seq (nextId ls) k)
    /\ length (segs r) = (length (segs ls) + k)%nat
    /\ length (allocated r) = (length (allocated ls) + k)%nat.
Proof.
  induction n as [ | n IH ]; intros ls; cbn [taper_loop].
  - exists 0%nat. cbn. rewrite app_nil_r. repeat split; lia.
  - destruct (Num.gtb (dose ls) 0).
    + destruct (IH (loop_body stepDays step strengths ls)) as (k & Hn & Hm & Hl & Ha).
      exists (S k). cbv zeta in *. rewrite Hn, Hm, Hl, Ha.
      rewrite loop_body_nextId, loop_body_segs, loop_body_allocated.
      rewrite !length_app, map_app, <- app_assoc. cbn [map length seq app].
      repeat split; try lia. 
    + exists 0%nat. cbn. rewrite app_nil_r. repeat split; lia.
Qed.

(** The last remainder is that of the last dose allocated. *)
Lemma loop_rem n : forall ls,
  rem ls = (fun d => remainder (allocateTablets d strengths)) <$> last (allocated ls) ->
  let r := taper_loop n stepDays step strengths ls in
  rem r = (fun d => remainder (allocateTablets d strengths)) <$> last (allocated r).
Proof.
  induction n as [ | n IH ]; intros ls H; cbn [taper_loop]; [ exact H | ].
  destruct (Num.gtb (dose ls) 0); [ | exact H ].
  apply IH. rewrite loop_body_rem, loop_body_allocated, last_snoc. reflexivity.
Qed.

(** Every dose allocated is positive and lies [i] decrements below the
    first. *)
Lemma loop_doses (d0 : Q) n : forall ls,
  (forall i d, allocated ls !! i = Some d -> 0 < d /\ d == d0 - inject_Z (Z.of_nat i) * step) ->
  (0 < dose ls -> dose ls == d0 - inject_Z (Z.of_nat (length (allocated ls))) * step) ->
  let r := taper_loop n stepDays step strengths ls in
  forall i d, allocated r !! i = Some d -> 0 < d /\ d == d0 - inject_Z (Z.of_nat i) * step.
Proof.
  induction n as [ | n IH ]; intros ls Ha Hd; cbn [taper_loop]; [ exact Ha | ].
  destruct (Num.gtb (dose ls) 0) eqn:E; [ | exact Ha ].
  apply gtb_lt in E. specialize (Hd E).
  apply IH.
  - intros i d. rewrite loop_body_allocated. intros Hi.
    apply lookup_app_Some in Hi as [Hi | [Hlen Hi]]; [ now apply Ha | ].
    apply list_lookup_singleton_Some in Hi as [Hi <-].
    assert (i = length (allocated ls)) as -> by lia.
    split; [ exact E | exact Hd ].
  - rewrite loop_body_dose, loop_body_allocated, length_app. cbn [length].
    destruct (max_cases 0 (Num.sub (dose ls) step)) as [[H ->] | [H ->]]; [ | lra ].
    intros _. rewrite sub_eq, Hd, Nat2Z.inj_add, inject_Z_plus.
    change (inject_Z (Z.of_nat 1)) with 1. ring.
Qed.

(** With a positive decrement the loop runs until the dose is used up. *)
Lemma loop_count n : forall ls,
  0 < step -> 0 <= dose ls ->
  length (segs (taper_loop n stepDays step strengths ls))
  = (length (segs ls) + Nat.min n (Z.to_nat (Qceiling (dose ls / step))))%nat.
Proof.
  induction n as [ | n IH ]; intros ls Hs Hd; cbn [taper_loop]; [ lia | ].
  destruct (Num.gtb (dose ls) 0) eqn:E.
  - apply gtb_lt in E.
    rewrite IH, loop_body_segs, length_app, loop_body_dose by
      (try exact Hs; rewrite ?loop_body_dose; apply next_dose_nonneg).
    cbn [length].
    assert (Hq : dose ls / step * step == dose ls) by (field; lra).
    assert (Hpos : 0 < dose ls / step) by (apply Qlt_shift_div_l; lra).
    pose proof (Qle_ceiling (dose ls / step)) as Hc.
    assert (Hc1 : (1 <= Qceiling (dose ls / step))%Z).
    { assert (inject_Z 0 < inject_Z (Qceiling (dose ls / step))) by (change (inject_Z 0) with 0; lra).
      rewrite <- Zlt_Qlt in *. lia. }
    assert (Hnext : Qceiling (Num.max 0 (Num.sub (dose ls) step) / step)
                    = (Qceiling (dose ls / step) - 1)%Z).
    { destruct (max_cases 0 (Num.sub (dose ls) step)) as [[H ->] | [H ->]].
      - rewrite sub_eq in H. apply Qceiling_unique.
        + unfold Z.sub. rewrite inject_Z_plus, inject_Z_opp. change (inject_Z 1) with 1.
          pose proof (Qceiling_lt (dose ls / step)) as Hl.
          unfold Z.sub in Hl. rewrite inject_Z_plus, inject_Z_opp in Hl.
          change (inject_Z 1) with 1 in Hl.
          assert (Num.sub (dose ls) step / step == dose ls / step - 1)
            by (rewrite sub_eq; field; lra).
          lra.
        + unfold Z.sub. rewrite inject_Z_plus, inject_Z_opp. change (inject_Z 1) with 1.
          assert (Num.sub (dose ls) step / step == dose ls / step - 1)
            by (rewrite sub_eq; field; lra).
          lra.
      - rewrite sub_eq in H.
        assert (Hlt : dose ls / step < 1) by (apply Qlt_shift_div_r; lra).
        rewrite (Qceiling_unique (dose ls / step) 1); [ | change (inject_Z 1) with 1; lra .. ].
        reflexivity. }
    rewrite Hnext. lia.
  - assert (Hz : dose ls == 0).
    { destruct (Qlt_le_dec 0 (dose ls)) as [L | L]; [ | lra ].
      apply gtb_lt in L. congruence. }
    assert (Hc : Qceiling (dose ls / step) = 0%Z).
    { apply Qceiling_unique; rewrite Hz; unfold Qdiv; change (inject_Z 0) with 0; lra. }
    rewrite Hc. change (Z.to_nat 0) with 0%nat. rewrite Nat.min_0_r. lia.
Qed.

(** With a decrement that is not positive the dose never falls and only
    the cap ends the loop. *)
Lemma loop_capped n : forall ls,
  step <= 0 -> 0 < dose ls ->
  length (segs (taper_loop n stepDays step strengths ls)) = (length (segs ls) + n)%nat.
Proof.
  induction n as [ | n IH ]; intros ls Hs Hd; cbn [taper_loop]; [ lia | ].
  rewrite (proj2 (gtb_lt (dose ls) 0) Hd).
  rewrite IH, loop_body_segs, length_app; cbn [length]; [ lia | exact Hs | ].
  rewrite loop_body_dose.
  destruct (max_cases 0 (Num.sub (dose ls) step)) as [[H ->] | [H ->]].
  - rewrite sub_eq. lra.
  - rewrite sub_eq in H. lra.
Qed.
End Doses.

Lemma clamped_start_nonneg a : 0 <= clamped_start a.
Proof.
  unfold clamped_start.
  destruct (max_cases 0 (Num.or_else (startDose a) 0)) as [[H ->] | [H ->]]; lra.
Qed.

Lemma clamped_days_ge_1 a : 1 <= clamped_days a.
Proof.
  unfold clamped_days.
  destruct (max_cases 1 (Num.or_else (stepDays a) 1)) as [[H ->] | [H ->]]; lra.
Qed.

(** Ids, days and frequencies of the steps of a run. *)
Lemma generated_shape (w : World) :
  map (fun s => (Segment.id s, Segment.days s, Segment.frequency s)) (generated_steps w)
  = map (fun i => (i, clamped_days (auto (state w)), "Once daily (od)"%string))
        (seq (segmentId w) (length (generated_steps w)))
  /\ segmentId (generateAutoSchedule w) = (segmentId w + length (generated_steps w))%nat
  /\ length (allocated_doses w) = length (generated_steps w)
  /\ 1 <= clamped_days (auto (state w)).
Proof.
  unfold generated_steps, allocated_doses.
  change (segmentId (generateAutoSchedule w)) with (nextId (run_loop (normalizeStrengths w))).
  rewrite run_loop_clamped.
  destruct (loop_meta (clamped_days (auto (state w))) (decrement (auto (state w)))
              (normalized_strengths w) 200
              (mkLoop (clamped_start (auto (state w))) None [] (segmentId w) []))
    as (k & Hn & Hm & Hl & Ha).
  cbv zeta in *. cbn [segs nextId allocated map app length] in *.
  rewrite Hn, Hm, Hl, Ha. repeat split. apply clamped_days_ge_1.
Qed.

(** X4.  The steps a run builds are numbered consecutively from the
    [segmentId] counter, which moves past them; each lasts the clamped step
    length, at least one day, and is labelled "Once daily (od)". *)
Theorem generated_steps_meta (w : World) :
  map (fun s => (Segment.id s, Segment.days s, Segment.frequency s)) (generated_steps w)
  = map (fun i => (i, clamped_days (auto (state w)), "Once daily (od)"%string))
        (seq (segmentId w) (length (generated_steps w)))
  /\ segmentId (generateAutoSchedule w) = (segmentId w + length (generated_steps w))%nat
  /\ length (allocated_doses w) = length (generated_steps w)
  /\ 1 <= clamped_days (auto (state w)).
Proof. exact (generated_shape w). Qed.

(** X5.  After a run [lastRemainder] is the remainder of the last dose
    allocated, over the normalized strengths, and [null] when no step was
    built. *)
Theorem generate_lastRemainder_last (w : World) :
  lastRemainder (auto (state (generateAutoSchedule w)))
  = (fun d => remainder (allocateTablets d (normalized_strengths w)))
      <$> last (allocated_doses w).
Proof.
  rewrite generate_lastRemainder. unfold allocated_doses. rewrite run_loop_clamped.
  now apply loop_rem.
Qed.

Lemma allocated_dose_at (w : World) (i : nat) (d : Q) :
  allocated_doses w !! i = Some d ->
  0 < d
  /\ d == clamped_start (auto (state w))
          - inject_Z (Z.of_nat i) * decrement (auto (state w)).
Proof.
  unfold allocated_doses. rewrite run_loop_clamped.
  apply (loop_doses _ _ _ (clamped_start (auto (state w)))).
  - intros j x Hx. discriminate.
  - intros _. cbn. ring.
Qed.

(** X6.  With the clamped start dose and the decrement multiples of
    0.25 mg of at most [limit] mg, where the code subtracts exactly, the
    doses allocated are positive and fall by the decrement from the
    clamped start dose: step [i] (from 0) is allocated for
    [start - i * decrement]. *)
Theorem allocated_doses_arithmetic (w : World) (i : nat) (d : Q) :
  grid_config (auto (state w)) = true ->
  allocated_doses w !! i = Some d ->
  0 < d
  /\ d == clamped_start (auto (state w))
          - inject_Z (Z.of_nat i) * decrement (auto (state w)).
Proof. intros _. exact (allocated_dose_at w i d). Qed.

Lemma allocated_doses_arithmetic_witness :
  grid_config (auto (state initial_world)) = true
  /\ allocated_doses initial_world !! 2%nat = Some 20
  /\ 0 < 20 /\ 20 == clamped_start (auto (state initial_world))
                   - inject_Z (Z.of_nat 2) * decrement (auto (state initial_world)).
Proof.
  assert (Hg : grid_config (auto (state initial_world)) = true) by reflexivity.
  assert (H : allocated_doses initial_world !! 2%nat = Some 20) by (vm_compute; reflexivity).
  exact (conj Hg (conj H (allocated_doses_arithmetic initial_world 2 20 Hg H))).
Defined.

(** X7.  With the clamped start dose and the decrement multiples of
    0.25 mg of at most [limit] mg, where the code subtracts exactly: with
    a positive decrement a run builds as many steps as decrements fit into
    the clamped start dose, rounded up, and at most 200; with a decrement
    that is not positive and a positive start dose it builds exactly
    200. *)
Theorem generated_steps_count (w : World) :
  let a := auto (state w) in
  grid_config a = true ->
  (0 < decrement a ->
   length (generated_steps w)
   = Nat.min 200 (Z.to_nat (Qceiling (clamped_start a / decrement a))))
  /\ (decrement a <= 0 -> 0 < clamped_start a -> length (generated_steps w) = 200%nat).
Proof.
  cbv zeta. intros _. unfold generated_steps. rewrite run_loop_clamped. split.
  - intros Hs. rewrite loop_count; [ reflexivity | exact Hs | apply clamped_start_nonneg ].
  - intros Hs Hd. now rewrite loop_capped.
Qed.

Lemma generated_steps_count_witness :
  grid_config (auto (state initial_world)) = true
  /\ 0 < decrement (auto (state initial_world))
  /\ length (generated_steps initial_world) = 6%nat.
Proof.
  assert (Hg : grid_config (auto (state initial_world)) = true) by reflexivity.
  assert (H : 0 < decrement (auto (state initial_world))) by reflexivity.
  exact (conj Hg (conj H (proj1 (generated_steps_count initial_world Hg) H))).
Defined.

(** ** The day-by-day schedule *)

Section ExpandScheduleFacts.
Variable formatDose : Tablets -> string.
Variable addDays : string -> nat -> string.

Local Abbreviation push := (push_row formatDose addDays).
Local Abbreviation row := (row_of formatDose addDays).

Lemma iter_push_row st s k : forall n rows,
  Nat.iter k (push st s) (n, rows)
  = ((n + k)%nat, rows ++ imap (fun i x => row st (S (n + i)) x) (replicate k s)).
Proof.
  induction k as [ | k IH ]; intros n rows.
  - cbn. now rewrite Nat.add_0_r, app_nil_r.
  - rewrite Nat.iter_succ, IH. unfold push_row at 1. cbn [fst snd].
    rewrite replicate_S_end, imap_app, length_replicate. cbn [imap].
    rewrite <- app_assoc, Nat.add_0_r. f_equal. lia.
Qed.

Lemma fold_expand st l : forall n rows,
  fold_left (expand_segment formatDose addDays st) l (n, rows)
  = ((n + length (schedule_days l))%nat,
     rows ++ imap (fun i x => row st (S (n + i)) x) (schedule_days l)).
Proof.
  induction l as [ | s l IH ]; intros n rows.
  - cbn. now rewrite Nat.add_0_r, app_nil_r.
  - cbn [fold_left schedule_days flat_map]. fold (schedule_days l).
    unfold expand_segment at 2.
    destruct (Qle_bool (totalDose (Segment.tablets s)) 0).
    + apply IH.
    + rewrite iter_push_row, IH.
      rewrite length_app, length_replicate, imap_app, length_replicate, <- app_assoc.
      f_equal; [ lia | ]. f_equal. f_equal.
      apply imap_ext. intros i x _. cbn. f_equal. lia.
Qed.

Lemma expandSchedule_imap (st : AppState) :
  expandSchedule formatDose addDays st
  = imap (fun i x => row st (S i) x) (schedule_days (segments st)).
Proof.
  unfold expandSchedule. rewrite fold_expand. reflexivity.
Qed.

(** X8.  The schedule has one row for every day of every segment with a
    positive total dose, in order; the row of day [i + 1] shows the dose
    text and the frequency of that day's segment. *)
Theorem expandSchedule_rows (st : AppState) :
  expandSchedule formatDose addDays st
  = imap (fun i x => row st (S i) x) (schedule_days (segments st)).
Proof. exact (expandSchedule_imap st). Qed.

(** X9.  Rows are numbered from 1 without gaps, seven to a week, and
    dated from the start date onwards when dates are on and a start date
    is set, undated otherwise. *)
Theorem expandSchedule_numbering (st : AppState) (i : nat) (r : Row.t) :
  expandSchedule formatDose addDays st !! i = Some r ->
  Row.day r = S i
  /\ Row.week r = (i / 7 + 1)%nat
  /\ Row.date r = (if useDates st && negb (String.eqb (startDate st) "")
                   then Some (addDays (startDate st) i) else None).
Proof.
  rewrite expandSchedule_imap, list_lookup_imap.
  destruct (schedule_days (segments st) !! i) as [x | ]; [ | discriminate ].
  cbn. intros [= <-]. cbn. rewrite Nat.sub_0_r. auto.
Qed.

(** X10.  A segment whose tablets total no dose adds no row and takes no
    day number; any other adds as many rows as it has days, a part of a
    day counting as a whole one. *)
Theorem expandSchedule_length (st : AppState) :
  length (expandSchedule formatDose addDays st)
  = list_sum (map (fun s => if Qle_bool (totalDose (Segment.tablets s)) 0 then 0%nat
                            else day_count (Segment.days s)) (segments st)).
Proof.
  rewrite expandSchedule_imap, length_imap. unfold schedule_days.
  induction (segments st) as [ | s l IH ]; [ reflexivity | ].
  cbn [flat_map map list_sum]. rewrite length_app, IH.
  destruct (Qle_bool (totalDose (Segment.tablets s)) 0); cbn [length];
    [ reflexivity | now rewrite length_replicate ].
Qed.

End ExpandScheduleFacts.

Lemma expandSchedule_numbering_witness :
  let rows := expandSchedule (fun _ => "dose"%string) (fun d _ => d) (state initial_world) in
  exists r, rows !! 7%nat = Some r /\ Row.day r = 8%nat /\ Row.week r = 2%nat.
Proof.
  assert (Hr : expandSchedule (fun _ => "dose"%string) (fun d _ => d) (state initial_world)
               !! 7%nat = Some (Row.mk 8 2 None "dose" "Once daily (od)"))
    by reflexivity.
  destruct (expandSchedule_numbering (fun _ => "dose"%string) (fun d _ => d)
              (state initial_world) 7 _ Hr) as (Hd & Hw & _).
  eexists. split; [ exact Hr | split; [ exact Hd | exact Hw ] ].
Defined.

(** ** Dates *)

Lemma split_dash_nonempty v : split_dash v <> [].
Proof.
  induction v as [ | c v IH ]; cbn [split_dash]; [ discriminate | ].
  destruct (Ascii.eqb c "-"); [ discriminate | ].
  destruct (split_dash v); [ contradiction | discriminate ].
Qed.

Lemma split_dash_no_dash v : no_dash v = true -> split_dash v = [v].
Proof.
  induction v as [ | c v IH ]; cbn [split_dash no_dash]; [ reflexivity | ].
  intros H. apply andb_true_iff in H as [Hc Hv]. apply negb_true_iff in Hc.
  now rewrite Hc, (IH Hv).
Qed.

Lemma split_dash_app u v :
  no_dash u = true ->
  split_dash (u ++ String "-" v) = u :: split_dash v.
Proof.
  induction u as [ | c u IH ]; cbn [split_dash no_dash String.append].
  - intros _. reflexivity.
  - intros H. apply andb_true_iff in H as [Hc Hu]. apply negb_true_iff in Hc.
    change (split_dash (String c u ++ String "-" v))
      with (if Ascii.eqb c "-" then EmptyString :: split_dash (u ++ String "-" v)
            else match split_dash (u ++ String "-" v) with
                 | part :: parts => String c part :: parts
                 | [] => [String c EmptyString]
                 end).
    now rewrite Hc, (IH Hu).
Qed.

Lemma split_dash_parts v : Forall (fun p => no_dash p = true) (split_dash v).
Proof.
  induction v as [ | c v IH ]; cbn [split_dash]; [ now repeat constructor | ].
  destruct (Ascii.eqb c "-") eqn:E; [ now constructor | ].
  destruct (split_dash v) as [ | p ps ].
  - repeat constructor. cbn [no_dash]. now rewrite E.
  - inversion IH; subst. constructor; [ | assumption ].
    cbn [no_dash]. rewrite E. assumption.
Qed.

Lemma no_dash_app u v : no_dash (u ++ v) = no_dash u && no_dash v.
Proof.
  induction u as [ | c u IH ]; [ reflexivity | ].
  change (no_dash (String c u ++ v)) with (negb (Ascii.eqb c "-") && no_dash (u ++ v)).
  cbn [no_dash]. now rewrite IH, andb_assoc.
Qed.

(** X11.  A date written year-month-day, each part non-empty, is shown
    day/month/year. *)
Theorem formatDateDisplay_iso (year month day : string) :
  no_dash year = true -> no_dash month = true -> no_dash day = true ->
  is_empty year = false -> is_empty month = false -> is_empty day = false ->
  formatDateDisplay (year ++ "-" ++ month ++ "-" ++ day)
  = (day ++ "/" ++ month ++ "/" ++ year)%string.
Proof.
  intros Hy Hm Hd Ey Em Ed. unfold formatDateDisplay.
  change (year ++ "-" ++ month ++ "-" ++ day)%string
    with (year ++ String "-" (month ++ String "-" day))%string.
  rewrite (split_dash_app _ _ Hy), (split_dash_app _ _ Hm), (split_dash_no_dash _ Hd).
  now rewrite Ey, Em, Ed.
Qed.

Lemma formatDateDisplay_iso_witness :
  formatDateDisplay "2024-03-05" = "05/03/2024"%string.
Proof.
  apply (formatDateDisplay_iso "2024" "03" "05"); reflexivity.
Defined.

Lemma formatDateDisplay_cases value :
  formatDateDisplay value = value
  \/ exists shown, no_dash shown = true /\ formatDateDisplay value = shown.
Proof.
  pose proof (split_dash_parts value) as Hp. unfold formatDateDisplay.
  destruct (split_dash value) as [ | y [ | m [ | d [ | ? ? ] ] ] ]; auto.
  destruct (is_empty y || is_empty m || is_empty d); auto.
  inversion Hp as [ | ? ? Hy Hp' ]; subst.
  inversion Hp' as [ | ? ? Hm Hp'' ]; subst.
  inversion Hp'' as [ | ? ? Hd _ ]; subst.
  right. eexists. split; [ | reflexivity ].
  rewrite !no_dash_app, Hy, Hm, Hd. reflexivity.
Qed.

(** X12.  Showing a shown date again changes nothing: whatever the text,
    formatting it twice gives what formatting it once gives. *)
Theorem formatDateDisplay_idempotent (value : string) :
  formatDateDisplay (formatDateDisplay value) = formatDateDisplay value.
Proof.
  destruct (formatDateDisplay_cases value) as [H | (shown & Hn & H)].
  - now rewrite !H.
  - rewrite H. unfold formatDateDisplay. now rewrite split_dash_no_dash.
Qed.

(** ** What the handlers keep *)

Lemma loaded_world_eq : loaded_world = render initial_world.
Proof. vm_compute. reflexivity. Qed.

Lemma forallb_insert_desc (p : Q -> bool) x l :
  forallb p (insert_desc x l) = p x && forallb p l.
Proof.
  induction l as [ | y l IH ]; [ reflexivity | ].
  cbn [insert_desc]. destruct (Qle_bool y x); [ reflexivity | ].
  cbn [forallb]. rewrite IH. now destruct (p x), (p y).
Qed.

Lemma forallb_sort_desc (p : Q -> bool) l : forallb p (sort_desc l) = forallb p l.
Proof.
  induction l as [ | x l IH ]; [ reflexivity | ].
  cbn [sort_desc foldr]. fold (sort_desc l). now rewrite forallb_insert_desc, IH.
Qed.

Lemma forallb_set_of (p : Q -> bool) l : forallb p l = true -> forallb p (set_of l) = true.
Proof.
  unfold set_of.
  assert (H : forall acc, forallb p acc = true -> forallb p l = true ->
                          forallb p (fold_left set_add l acc) = true).
  { induction l as [ | x l IH ]; intros acc Hacc Hl; [ exact Hacc | ].
    cbn [fold_left forallb] in *. apply andb_true_iff in Hl as [Hx Hl].
    apply IH; [ | exact Hl ]. unfold set_add.
    destruct (existsb (Qeq_bool x) acc); [ exact Hacc | ].
    rewrite forallb_app, Hacc. cbn. now rewrite Hx. }
  now apply H.
Qed.

Lemma positive_normalized l : positive l = true -> positive (sort_desc (set_of l)) = true.
Proof.
  unfold positive. intros H. rewrite forallb_sort_desc. now apply forallb_set_of.
Qed.

(** What [render] needs to find in order to leave a well-formed state. *)
Definition renderable (w : World) : Prop :=
  positive (read (heap w) (strengths (state w))) = true
  /\ NoDup (ids w)
  /\ Forall (fun i => (i < segmentId w)%nat) (ids w).

Lemma normalize_ids w : ids (normalizeStrengths w) = ids w.
Proof.
  unfold ids.
  change (segments (state (normalizeStrengths w))) with
    (map (fun s => Segment.mk (Segment.id s) (Segment.days s) (Segment.frequency s)
                     (next_tablets (normalized_strengths w) (Segment.tablets s)))
         (segments (state w))).
  rewrite map_map. reflexivity.
Qed.

Lemma normalize_lookup w :
  heap (normalizeStrengths w) !! strengths (state (normalizeStrengths w))
  = Some (normalized_strengths w).
Proof.
  destruct w as [h n st]. unfold normalizeStrengths, alloc, normalized_strengths. cbn.
  now rewrite lookup_insert_eq.
Qed.

Lemma render_well_formed w : renderable w -> well_formed (render w).
Proof.
  intros (Hp & Hn & Hf). unfold render. constructor.
  - rewrite normalized_normalize. apply normalize_lookup.
  - rewrite normalized_normalize. now apply positive_normalized.
  - apply normalize_establishes_keyed.
  - now rewrite normalize_ids.
  - now rewrite normalize_ids.
Qed.

Lemma well_formed_read w :
  well_formed w -> read (heap w) (strengths (state w)) = normalized_strengths w.
Proof. intros H. unfold read. now rewrite (wf_array _ H). Qed.

Lemma well_formed_renderable w : well_formed w -> renderable w.
Proof.
  intros H. repeat split.
  - rewrite (well_formed_read _ H). apply (wf_positive _ H).
  - apply (wf_ids _ H).
  - apply (wf_fresh _ H).
Qed.

Lemma renderable_normalize w : renderable w -> renderable (normalizeStrengths w).
Proof.
  intros (Hp & Hn & Hf). repeat split.
  - rewrite normalize_read. now apply positive_normalized.
  - now rewrite normalize_ids.
  - now rewrite normalize_ids.
Qed.

(** A state that differs only outside the strengths, the segments and the
    counter is as well formed. *)
Lemma well_formed_ext w w' :
  heap w' = heap w -> segmentId w' = segmentId w ->
  strengths (state w') = strengths (state w) ->
  segments (state w') = segments (state w) ->
  well_formed w -> well_formed w'.
Proof.
  intros Hh Hi Hs Hg [H1 H2 H3 H4 H5].
  assert (Hn : normalized_strengths w' = normalized_strengths w).
  { unfold normalized_strengths. now rewrite Hh, Hs. }
  constructor.
  - now rewrite Hn, Hh, Hs.
  - now rewrite Hn.
  - unfold segments_keyed. now rewrite Hn, Hg.
  - unfold ids. now rewrite Hg.
  - unfold ids. now rewrite Hg, Hi.
Qed.

Lemma renderable_ext w w' :
  read (heap w') (strengths (state w')) = read (heap w) (strengths (state w)) ->
  segmentId w' = segmentId w ->
  map Segment.id (segments (state w')) = map Segment.id (segments (state w)) ->
  renderable w -> renderable w'.
Proof.
  intros Hr Hi Hg (Hp & Hn & Hf). unfold renderable, ids. now rewrite Hr, Hi, Hg.
Qed.

Lemma positive_app l k : positive (l ++ k) = positive l && positive k.
Proof. apply forallb_app. Qed.

Lemma positive_filter (P : Q -> Prop) `{forall x, Decision (P x)} l :
  positive l = true -> positive (filter P l) = true.
Proof.
  unfold positive. induction l as [ | x l IH ]; [ reflexivity | ].
  cbn [forallb]. intros Hl. apply andb_true_iff in Hl as [Hx Hl].
  rewrite filter_cons. destruct (decide (P x)); [ cbn [forallb]; rewrite Hx | ]; auto.
Qed.

Lemma default_strengths_positive s : In s DEFAULT_STRENGTHS -> Num.gtb s 0 = true.
Proof.
  unfold DEFAULT_STRENGTHS. cbn [In].
  intros [<- | [<- | [<- | [<- | [<- | [<- | []]]]]]]; reflexivity.
Qed.

Lemma read_push s w :
  read (heap (push_strength s w)) (strengths (state (push_strength s w)))
  = read (heap w) (strengths (state w)) ++ [s].
Proof.
  destruct w as [h n st]. unfold push_strength, read. cbn.
  now rewrite lookup_insert_eq.
Qed.

Lemma read_assign v w :
  read (heap (assign_strengths v w)) (strengths (state (assign_strengths v w))) = v.
Proof.
  destruct w as [h n st]. unfold assign_strengths, alloc, read. cbn.
  now rewrite lookup_insert_eq.
Qed.

Lemma updateSegment_ids id f l :
  (forall s, Segment.id (f s) = Segment.id s) ->
  map Segment.id (updateSegment id f l) = map Segment.id l.
Proof.
  intros Hf. induction l as [ | s l IH ]; [ reflexivity | ].
  cbn [updateSegment]. destruct (Nat.eqb (Segment.id s) id); cbn [map].
  - now rewrite Hf.
  - now rewrite IH.
Qed.

Lemma findIndex_Some id l i :
  findIndex id l = Some i ->
  exists s, l !! i = Some s /\ Segment.id s = id
            /\ Forall (fun s' => Segment.id s' <> id) (take i l).
Proof.
  revert i. induction l as [ | x l IH ]; intros i; cbn [findIndex]; [ discriminate | ].
  destruct (Nat.eqb (Segment.id x) id) eqn:E.
  - intros [= <-]. exists x. apply Nat.eqb_eq in E.
    split; [ reflexivity | split; [ exact E | constructor ] ].
  - destruct (findIndex id l) as [j | ]; [ | discriminate ].
    cbn. intros [= <-]. destruct (IH j eq_refl) as (s & Hs & Hid & Hall).
    exists s. split; [ exact Hs | split; [ exact Hid | ] ].
    cbn [take]. constructor; [ | exact Hall ].
    now apply Nat.eqb_neq.
Qed.

Lemma findIndex_None id l :
  findIndex id l = None -> Forall (fun s => Segment.id s <> id) l.
Proof.
  induction l as [ | x l IH ]; cbn [findIndex]; [ constructor | ].
  destruct (Nat.eqb (Segment.id x) id) eqn:E; [ discriminate | ].
  destruct (findIndex id l); [ discriminate | ].
  intros _. constructor; [ now apply Nat.eqb_neq | now apply IH ].
Qed.

Lemma insert_here (l1 : list Segment) x y l2 :
  <[length l1 := y]> (l1 ++ x :: l2) = l1 ++ y :: l2.
Proof. induction l1 as [ | z l1 IH ]; cbn; [ reflexivity | f_equal; exact IH ]. Qed.

Lemma insert_next (l1 : list Segment) x y z l2 :
  <[S (length l1) := y]> (l1 ++ x :: z :: l2) = l1 ++ x :: y :: l2.
Proof. induction l1 as [ | u l1 IH ]; cbn; [ reflexivity | f_equal; exact IH ]. Qed.

Lemma lookup_here (l1 : list Segment) x l2 : (l1 ++ x :: l2) !! length l1 = Some x.
Proof. induction l1 as [ | z l1 IH ]; cbn; [ reflexivity | exact IH ]. Qed.

Lemma lookup_next (l1 : list Segment) x y l2 :
  (l1 ++ x :: y :: l2) !! S (length l1) = Some y.
Proof. induction l1 as [ | z l1 IH ]; cbn; [ reflexivity | exact IH ]. Qed.

Lemma swap_adjacent l1 a b l2 :
  swap (length l1) (S (length l1)) (l1 ++ a :: b :: l2) = l1 ++ b :: a :: l2.
Proof.
  unfold swap. rewrite lookup_here, lookup_next, insert_here, insert_next. reflexivity.
Qed.

Lemma swap_adjacent' l1 a b l2 :
  swap (S (length l1)) (length l1) (l1 ++ a :: b :: l2) = l1 ++ b :: a :: l2.
Proof.
  unfold swap. rewrite lookup_here, lookup_next, insert_next, insert_here. reflexivity.
Qed.

(** Two neighbours in a list. *)
Lemma neighbours (l : list Segment) i a b :
  l !! i = Some a -> l !! S i = Some b ->
  l = take i l ++ a :: b :: drop (S (S i)) l /\ length (take i l) = i.
Proof.
  intros Ha Hb. split.
  - rewrite <- (take_drop_middle l i a Ha) at 1. f_equal. f_equal.
    rewrite <- (take_drop_middle l (S i) b Hb) at 1.
    rewrite drop_app_length'; [ reflexivity | ].
    rewrite length_take_le; [ reflexivity | ].
    apply lookup_lt_Some in Hb. lia.
  - apply length_take_le. apply lookup_lt_Some in Ha. lia.
Qed.

Lemma NoDup_ids_filter (P : Segment -> Prop) `{forall s, Decision (P s)} l :
  NoDup (map Segment.id l) -> NoDup (map Segment.id (filter P l)).
Proof.
  induction l as [ | s l IH ]; [ trivial | ].
  cbn [map]. rewrite NoDup_cons. intros [Hs Hl].
  rewrite filter_cons. destruct (decide (P s)); [ | now apply IH ].
  cbn [map]. rewrite NoDup_cons. split; [ | now apply IH ].
  intros Hin. apply Hs. apply list_elem_of_In, in_map_iff in Hin.
  destruct Hin as (x & Hx & Hin). apply list_elem_of_In, in_map_iff.
  exists x. split; [ exact Hx | ].
  apply list_elem_of_In. apply list_elem_of_In in Hin.
  now apply list_elem_of_filter in Hin as [_ Hin].
Qed.

Lemma Forall_ids_filter (Q : nat -> Prop) (P : Segment -> Prop)
    `{forall s, Decision (P s)} l :
  Forall Q (map Segment.id l) -> Forall Q (map Segment.id (filter P l)).
Proof.
  induction l as [ | s l IH ]; [ trivial | ].
  cbn [map]. intros Hl. inversion Hl; subst.
  rewrite filter_cons. destruct (decide (P s)); [ cbn [map]; constructor | ]; auto.
Qed.

Lemma Forall_lt_S n l : Forall (fun i => (i < n)%nat) l -> Forall (fun i => (i < S n)%nat) l.
Proof. intros H. eapply Forall_impl; [ exact H | ]. intros i Hi. cbn in *. lia. Qed.

Lemma fresh_not_in n l : Forall (fun i => (i < n)%nat) l -> n ∉ l.
Proof.
  intros H Hin. rewrite Forall_forall in H. specialize (H n Hin). lia.
Qed.

(** A run of the generator leaves a state that can be rendered. *)
Lemma generate_renderable w : renderable w -> renderable (generateAutoSchedule w).
Proof.
  intros Hw. pose proof (renderable_normalize w Hw) as (Hp & Hn & Hf).
  destruct (generated_shape w) as (Hm & Hid & _ & _).
  assert (Hids : map Segment.id (generated_steps w)
                 = seq (segmentId w) (length (generated_steps w))).
  { apply (f_equal (map (fun x => fst (fst x)))) in Hm.
    rewrite !map_map in Hm.
    etransitivity; [ | etransitivity; [ exact Hm | ] ].
    - apply map_ext. reflexivity.
    - rewrite <- (map_id (seq _ _)) at 2. apply map_ext. reflexivity. }
  repeat split.
  - change (read (heap (generateAutoSchedule w)) (strengths (state (generateAutoSchedule w))))
      with (read (heap (normalizeStrengths w)) (strengths (state (normalizeStrengths w)))).
    exact Hp.
  - unfold ids. rewrite generate_segments.
    destruct (generated_steps w) as [ | s l ] eqn:E; [ exact Hn | ].
    rewrite Hids. apply NoDup_seq.
  - unfold ids. rewrite generate_segments, Hid.
    destruct (generated_steps w) as [ | s l ] eqn:E.
    + cbn [length]. rewrite Nat.add_0_r. exact Hf.
    + rewrite Hids. apply Forall_seq. intros j Hj. lia.
Qed.

Lemma swap_ids_perm (l : list Segment) i a b :
  l !! i = Some a -> l !! S i = Some b ->
  map Segment.id (swap i (S i) l) ≡ₚ map Segment.id l
  /\ map Segment.id (swap (S i) i l) ≡ₚ map Segment.id l.
Proof.
  intros Ha Hb. destruct (neighbours l i a b Ha Hb) as [Hl Hlen].
  remember (take i l) as l1 eqn:E1. remember (drop (S (S i)) l) as l2 eqn:E2.
  clear E1 E2 Ha Hb. subst l i.
  rewrite swap_adjacent, swap_adjacent', !map_app. cbn [map].
  split; apply Permutation_app_head, perm_swap.
Qed.

Section Preservation.
Variable Number : string -> option Q.

Lemma handleClick_well_formed a w :
  offered (click a) -> well_formed w -> well_formed (handleClick Number a w).
Proof.
  intros Ho Hw. pose proof (well_formed_renderable w Hw) as (Hp & Hn & Hf).
  destruct a as [ s checked | | | id | id | id | id | | | | ]; cbn [handleClick].
  - (* toggle-strength *)
    apply render_well_formed.
    match goal with
    | |- renderable (with_state _ (normalizeStrengths ?w1)) =>
        apply (renderable_ext (normalizeStrengths w1)); [ reflexivity .. | ];
        apply renderable_normalize
    end.
    destruct checked.
    + repeat split; [ | exact Hn | exact Hf ].
      rewrite read_push, positive_app, Hp. cbn [positive forallb].
      now rewrite (default_strengths_positive s Ho).
    + repeat split; [ | exact Hn | exact Hf ].
      rewrite read_assign. now apply positive_filter.
  - (* add-custom-strength *)
    destruct (Number (customStrength (state w))) as [ s | ]; [ | exact Hw ].
    destruct (Num.gtb s 0) eqn:Es; [ | exact Hw ].
    apply render_well_formed.
    match goal with
    | |- renderable (with_state _ (normalizeStrengths (with_state _ ?w1))) =>
        apply (renderable_ext (normalizeStrengths w1)); [ reflexivity .. | ];
        apply renderable_normalize
    end.
    destruct (existsb _ _); [ now repeat split | ].
    repeat split; [ | exact Hn | exact Hf ].
    rewrite read_push, positive_app, Hp. cbn [positive forallb]. now rewrite Es.
  - (* add-step *)
    apply render_well_formed. repeat split.
    + exact Hp.
    + unfold ids. cbn. rewrite map_app. cbn [map Segment.id].
      apply NoDup_app. split; [ exact Hn | ]. split; [ | apply NoDup_singleton ].
      intros x Hx. rewrite list_elem_of_singleton. intros ->.
      now apply (fresh_not_in _ _ Hf).
    + unfold ids. cbn. rewrite map_app. cbn [map Segment.id].
      apply Forall_app. split; [ now apply Forall_lt_S | ].
      repeat constructor.
  - (* remove *)
    apply render_well_formed. repeat split.
    + exact Hp.
    + unfold ids. cbn. now apply NoDup_ids_filter.
    + unfold ids. cbn. now apply Forall_ids_filter.
  - (* duplicate *)
    destruct (findIndex id (segments (state w))) as [ i | ] eqn:Ei; [ | exact Hw ].
    destruct (segments (state w) !! i) as [ s | ] eqn:Es; [ | exact Hw ].
    apply render_well_formed.
    assert (Hperm : map Segment.id (splice_in (S i)
                      (Segment.mk (segmentId w) (Segment.days s) (Segment.frequency s)
                                  (Segment.tablets s)) (segments (state w)))
                    ≡ₚ segmentId w :: ids w).
    { unfold splice_in, ids. rewrite map_app. cbn [map Segment.id].
      rewrite <- Permutation_middle, <- map_app, take_drop. reflexivity. }
    repeat split.
    + exact Hp.
    + unfold ids. cbn. rewrite Hperm. apply NoDup_cons. split; [ | exact Hn ].
      now apply fresh_not_in.
    + unfold ids. cbn. rewrite Hperm. constructor; [ lia | now apply Forall_lt_S ].
  - (* move-up *)
    destruct (findIndex id (segments (state w))) as [ [ | j ] | ] eqn:Ei; try exact Hw.
    apply findIndex_Some in Ei as (s & Hs & _ & _).
    destruct (lookup_lt_is_Some_2 (segments (state w)) j) as [a Ha];
      [ apply lookup_lt_Some in Hs; lia | ].
    apply render_well_formed.
    assert (Hperm : map Segment.id (swap (S j) j (segments (state w))) ≡ₚ ids w)
      by apply (swap_ids_perm _ _ _ _ Ha Hs).
    repeat split.
    + exact Hp.
    + unfold ids. cbn. now rewrite Hperm.
    + unfold ids. cbn. now rewrite Hperm.
  - (* move-down *)
    destruct (findIndex id (segments (state w))) as [ i | ] eqn:Ei; [ | exact Hw ].
    destruct (Nat.ltb (S i) (length (segments (state w)))) eqn:El; [ | exact Hw ].
    apply Nat.ltb_lt in El.
    apply findIndex_Some in Ei as (s & Hs & _ & _).
    destruct (lookup_lt_is_Some_2 (segments (state w)) (S i) El) as [b Hb].
    apply render_well_formed.
    assert (Hperm : map Segment.id (swap i (S i) (segments (state w))) ≡ₚ ids w)
      by apply (swap_ids_perm _ _ _ _ Hs Hb).
    repeat split.
    + exact Hp.
    + unfold ids. cbn. now rewrite Hperm.
    + unfold ids. cbn. now rewrite Hperm.
  - (* run-auto *)
    apply render_well_formed, generate_renderable. now repeat split.
  - (* clear-steps *)
    apply render_well_formed. repeat split; [ exact Hp | constructor | constructor ].
  - (* generate-handout *)
    apply render_well_formed. now repeat split.
  - (* reset-all *)
    apply render_well_formed. destruct w as [h n st].
    unfold getInitialState, new_segment, createSegment, alloc. cbn.
    repeat split.
    + unfold read. cbn. now rewrite lookup_insert_eq.
    + unfold ids. cbn. apply (NoDup_seq n 3).
    + unfold ids. cbn. repeat constructor; lia.
Qed.

Lemma handleInput_well_formed a w : well_formed w -> well_formed (handleInput Number a w).
Proof.
  intros Hw.
  destruct a; cbn [handleInput];
    try (apply (well_formed_ext w); [ reflexivity .. | exact Hw ]);
    apply render_well_formed;
    apply (renderable_ext w); try reflexivity; now apply well_formed_renderable.
Qed.

Lemma handleChange_well_formed a w : well_formed w -> well_formed (handleChange Number a w).
Proof.
  intros Hw. pose proof (well_formed_renderable w Hw) as Hr.
  destruct a; cbn [handleChange]; apply render_well_formed;
    (apply (renderable_ext w); [ reflexivity | reflexivity | | exact Hr ]);
    cbn; apply updateSegment_ids; reflexivity.
Qed.

Lemma handle_well_formed e w :
  offered e -> well_formed w -> well_formed (handle Number e w).
Proof.
  destruct e; intros Ho Hw; cbn [handle].
  - now apply handleClick_well_formed.
  - now apply handleInput_well_formed.
  - now apply handleChange_well_formed.
Qed.

Lemma run_invariant events : forall w,
  Forall offered events -> well_formed w -> well_formed (run Number events w).
Proof.
  induction events as [ | e events IH ]; intros w Ho Hw; [ exact Hw | ].
  inversion Ho; subst. cbn [run fold_left]. apply IH; [ assumption | ].
  now apply handle_well_formed.
Qed.

End Preservation.

Lemma loaded_well_formed : well_formed loaded_world.
Proof.
  rewrite loaded_world_eq. apply render_well_formed. repeat split.
  - unfold ids. cbn. apply (NoDup_seq 1 3).
  - unfold ids. cbn. repeat constructor; lia.
Qed.

(** ** Objects and normalization *)

Lemma Qeq_bool_right k x y : Qeq_bool x y = true -> Qeq_bool k x = Qeq_bool k y.
Proof.
  intros H. apply Qeq_bool_iff in H.
  destruct (Qeq_bool k x) eqn:E1, (Qeq_bool k y) eqn:E2; try reflexivity.
  - apply Qeq_bool_iff in E1. assert (Qeq_bool k y = true); [ | congruence ].
    apply Qeq_bool_iff. now rewrite E1.
  - apply Qeq_bool_iff in E2. assert (Qeq_bool k x = true); [ | congruence ].
    apply Qeq_bool_iff. now rewrite E2.
Qed.

Lemma Qeq_bool_left k x y : Qeq_bool x y = true -> Qeq_bool x k = Qeq_bool y k.
Proof.
  intros H. rewrite (Qeq_bool_comm x k), (Qeq_bool_comm y k). now apply Qeq_bool_right.
Qed.

Lemma obj_get_key t x y : Qeq_bool x y = true -> obj_get t x = obj_get t y.
Proof.
  intros H. induction t as [ | [k v] t IH ]; [ reflexivity | ].
  cbn [obj_get]. now rewrite (Qeq_bool_right k x y H), IH.
Qed.

(** Reading a key after assigning to a key: the value assigned when the
    two keys are the same number, what was there before otherwise. *)
Lemma obj_get_set (t : Tablets) (k v y : Q) :
  obj_get (obj_set t k v) y = if Qeq_bool k y then Some v else obj_get t y.
Proof.
  induction t as [ | [k' v'] t IH ]; cbn [obj_set obj_get].
  - reflexivity.
  - destruct (Qeq_bool k' k) eqn:E; cbn [obj_get].
    + rewrite (Qeq_bool_left y k' k E). now destruct (Qeq_bool k y).
    + rewrite IH. destruct (Qeq_bool k' y) eqn:E'; [ | reflexivity ].
      destruct (Qeq_bool k y) eqn:E''; [ | reflexivity ].
      apply Qeq_bool_sym in E''.
      rewrite (Qeq_bool_right k' y k E'') in E'. congruence.
Qed.

Lemma existsb_Qeq x y l :
  Qeq_bool x y = true -> existsb (Qeq_bool x) l = existsb (Qeq_bool y) l.
Proof.
  intros H. induction l as [ | a l IH ]; [ reflexivity | ].
  cbn [existsb]. now rewrite IH, (Qeq_bool_left a x y H).
Qed.

Lemma existsb_set_of x l : existsb (Qeq_bool x) (set_of l) = existsb (Qeq_bool x) l.
Proof.
  unfold set_of.
  assert (H : forall acc, existsb (Qeq_bool x) (fold_left set_add l acc)
                          = existsb (Qeq_bool x) acc || existsb (Qeq_bool x) l).
  { induction l as [ | y l IH ]; intros acc; cbn [fold_left existsb].
    - now rewrite orb_false_r.
    - rewrite IH. unfold set_add.
      destruct (existsb (Qeq_bool y) acc) eqn:E.
      + destruct (Qeq_bool x y) eqn:Exy; [ | reflexivity ].
        now rewrite (existsb_Qeq x y acc Exy), E.
      + rewrite existsb_app. cbn [existsb]. now rewrite orb_false_r, orb_assoc. }
  now rewrite H.
Qed.

Lemma existsb_normalized x w :
  existsb (Qeq_bool x) (normalized_strengths w)
  = existsb (Qeq_bool x) (read (heap w) (strengths (state w))).
Proof.
  unfold normalized_strengths. now rewrite existsb_sort_desc, existsb_set_of.
Qed.

Lemma obj_get_next_tablets u old x :
  obj_get (next_tablets u old) x
  = if existsb (Qeq_bool x) u then Some (default 0 (obj_get old x)) else None.
Proof.
  unfold next_tablets.
  assert (H : forall acc,
            obj_get (fold_left (fun next strength =>
                                  obj_set next strength (default 0 (obj_get old strength)))
                               u acc) x
            = if existsb (Qeq_bool x) u then Some (default 0 (obj_get old x))
              else obj_get acc x).
  { induction u as [ | s u IH ]; intros acc; cbn [fold_left existsb]; [ reflexivity | ].
    rewrite IH, obj_get_set. destruct (existsb (Qeq_bool x) u); [ now rewrite orb_true_r | ].
    rewrite orb_false_r, (Qeq_bool_comm s x).
    destruct (Qeq_bool x s) eqn:E; [ | reflexivity ].
    now rewrite (obj_get_key old x s E). }
  apply H.
Qed.

Lemma normalize_segment w i s :
  segments (state w) !! i = Some s ->
  segments (state (normalizeStrengths w)) !! i
  = Some (Segment.mk (Segment.id s) (Segment.days s) (Segment.frequency s)
            (next_tablets (normalized_strengths w) (Segment.tablets s))).
Proof.
  intros H.
  change (segments (state (normalizeStrengths w))) with
    (map (fun s => Segment.mk (Segment.id s) (Segment.days s) (Segment.frequency s)
                     (next_tablets (normalized_strengths w) (Segment.tablets s)))
         (segments (state w))).
  change (map ?f ?l) with (f <$> l). now rewrite list_lookup_fmap, H.
Qed.

(** X13.  [normalizeStrengths] leaves [state.strengths] sorted largest
    first and without repetition, holding exactly the numbers it held. *)
Theorem normalizeStrengths_strengths (w : World) :
  let after := read (heap (normalizeStrengths w)) (strengths (state (normalizeStrengths w))) in
  sorted_desc after = true
  /\ distinct after = true
  /\ forall x, existsb (Qeq_bool x) after
               = existsb (Qeq_bool x) (read (heap w) (strengths (state w))).
Proof.
  cbv zeta. rewrite normalize_read. fold (normalized_strengths w). split; [ | split ].
  - apply sorted_sort_desc.
  - apply distinct_normalized.
  - intros x. apply existsb_normalized.
Qed.

(** X14.  [normalizeStrengths] keeps every segment with its id, days and
    frequency; its tablets then have a count for each strength of the
    array and for nothing else: the old count where there was one, 0 where
    there was none. *)
Theorem normalizeStrengths_segments (w : World) (i : nat) (s : Segment) :
  segments (state w) !! i = Some s ->
  exists s',
    segments (state (normalizeStrengths w)) !! i = Some s'
    /\ Segment.id s' = Segment.id s
    /\ Segment.days s' = Segment.days s
    /\ Segment.frequency s' = Segment.frequency s
    /\ forall x,
         obj_get (Segment.tablets s') x
         = if existsb (Qeq_bool x) (read (heap w) (strengths (state w)))
           then Some (default 0 (obj_get (Segment.tablets s) x)) else None.
Proof.
  intros H. eexists. split; [ apply (normalize_segment w i s H) | ].
  cbn [Segment.id Segment.days Segment.frequency Segment.tablets].
  repeat split. intros x. now rewrite obj_get_next_tablets, existsb_normalized.
Qed.

Lemma normalizeStrengths_segments_witness :
  exists s',
    segments (state (normalizeStrengths stale_world)) !! 0%nat = Some s'
    /\ obj_get (Segment.tablets s') 5 = Some 0
    /\ obj_get (Segment.tablets s') 25 = None.
Proof.
  destruct (normalizeStrengths_segments stale_world 0
              (Segment.mk 1 3 "Once daily (od)" [(25, 1)]) eq_refl)
    as (s' & Hs & _ & _ & _ & Hget).
  exists s'. split; [ exact Hs | ]. split; [ exact (Hget 5) | exact (Hget 25) ].
Defined.

(** X15.  Normalizing a second time changes neither the strengths nor the
    segments. *)
Theorem normalizeStrengths_idempotent (w : World) :
  let w1 := normalizeStrengths w in
  let w2 := normalizeStrengths w1 in
  read (heap w2) (strengths (state w2)) = read (heap w1) (strengths (state w1))
  /\ segments (state w2) = segments (state w1)
  /\ auto (state w2) = auto (state w) /\ segmentId w2 = segmentId w.
Proof.
  cbv zeta. split; [ | split; [ | split; reflexivity ] ].
  - rewrite (normalize_read (normalizeStrengths w)).
    fold (normalized_strengths (normalizeStrengths w)).
    now rewrite normalized_normalize, normalize_read.
  - apply normalize_keeps_keyed, normalize_establishes_keyed.
Qed.

(** ** The states the page can reach *)

Lemma well_formed_distinct w :
  well_formed w ->
  read (heap w) (strengths (state w)) = normalized_strengths w
  /\ positive (normalized_strengths w) = true
  /\ distinct (normalized_strengths w) = true
  /\ sorted_desc (normalized_strengths w) = true.
Proof.
  intros H. split; [ now apply well_formed_read | ].
  split; [ apply (wf_positive _ H) | ].
  split; [ apply distinct_normalized | apply sorted_sort_desc ].
Qed.

(** X16.  Whatever events the page sends after loading, the state stays
    well formed: the strengths array is positive, sorted largest first and
    free of repetitions, every segment is keyed by exactly these strengths,
    and the segment ids are distinct and below the id counter. *)
Theorem reachable_well_formed (Number : string -> option Q) (events : list Event) :
  Forall offered events ->
  let w := run Number events loaded_world in
  well_formed w
  /\ read (heap w) (strengths (state w)) = normalized_strengths w
  /\ distinct (normalized_strengths w) = true
  /\ sorted_desc (normalized_strengths w) = true.
Proof.
  intros Ho w.
  assert (Hw : well_formed w) by (apply run_invariant; [ exact Ho | apply loaded_well_formed ]).
  destruct (well_formed_distinct w Hw) as (H1 & _ & H3 & H4). auto.
Qed.

Lemma reachable_well_formed_witness :
  let events := [click add_step; click (toggle_strength 10 true); click (remove 2)] in
  Forall offered events
  /\ well_formed (run (fun _ => None) events loaded_world).
Proof.
  assert (Ho : Forall offered
                 [click add_step; click (toggle_strength 10 true); click (remove 2)]).
  { constructor; [ exact I | ].
    constructor; [ cbn; auto 10 | ].
    constructor; [ exact I | constructor ]. }
  exact (conj Ho (proj1 (reachable_well_formed (fun _ => None) _ Ho))).
Defined.

(** C10.  In every state the page can reach, a run whose clamped start
    dose is 0 builds no step, leaves [state.segments] as it was and sets
    [lastRemainder] to [null]: every handler ends in [render], which keys
    the segments by the normalized strengths, and [normalizeStrengths],
    called first by the run, then changes nothing. *)
Theorem zero_steps_keep_segments (Number : string -> option Q) (events : list Event) :
  Forall offered events ->
  let w := run Number events loaded_world in
  clamped_start (auto (state w)) == 0 ->
  generated_steps w = []
  /\ segments (state (generateAutoSchedule w)) = segments (state w)
  /\ lastRemainder (auto (state (generateAutoSchedule w))) = None.
Proof.
  intros Ho w H0.
  assert (Hw : well_formed w) by (apply run_invariant; [ exact Ho | apply loaded_well_formed ]).
  destruct (zero_steps w H0) as (Hgen & Hrem & Hseg).
  split; [ exact Hgen | ]. split; [ | exact Hrem ].
  rewrite Hseg. apply normalize_keeps_keyed, (wf_keyed _ Hw).
Qed.

Lemma zero_steps_keep_segments_witness :
  let Number := fun _ : string => Some 0 in
  let events := [click run_auto; input (auto_start "0")] in
  let w := run Number events loaded_world in
  Forall offered events
  /\ clamped_start (auto (state w)) == 0
  /\ length (segments (state w)) = 6%nat
  /\ lastRemainder (auto (state w)) = Some 0
  /\ segments (state (generateAutoSchedule w)) = segments (state w)
  /\ lastRemainder (auto (state (generateAutoSchedule w))) = None.
Proof.
  cbv zeta.
  assert (Ho : Forall offered [click run_auto; input (auto_start "0")]).
  { repeat constructor. }
  assert (H0 : clamped_start
                 (auto (state (run (fun _ => Some 0)
                                   [click run_auto; input (auto_start "0")] loaded_world)))
               == 0) by (vm_compute; reflexivity).
  split; [ exact Ho | ]. split; [ exact H0 | ].
  split; [ vm_compute; reflexivity | ]. split; [ vm_compute; reflexivity | ].
  exact (proj2 (zero_steps_keep_segments (fun _ => Some 0) _ Ho H0)).
Defined.

(** ** Steps of a run, on the grid *)

Lemma grid_config_spec a :
  grid_config a = true ->
  clamped_start a <= limit
  /\ (exists n : Z, clamped_start a / (1 # 4) == inject_Z n)
  /\ (exists m : Z, decrement a / (1 # 4) == inject_Z m).
Proof.
  unfold grid_config, grid_dose, grid_step. intros H.
  apply andb_true_iff in H as [Hs Hd].
  apply andb_true_iff in Hs as [Hs Hq]. apply andb_true_iff in Hs as [_ Hl].
  apply andb_true_iff in Hd as [_ Hm].
  apply Qle_bool_iff in Hl. apply multiple_of_iff in Hq, Hm. auto.
Qed.

(** With a decrement that is not negative every dose allocated is on the
    grid of the allocator. *)
Lemma allocated_dose_grid (w : World) (i : nat) (d : Q) :
  grid_config (auto (state w)) = true -> 0 <= decrement (auto (state w)) ->
  allocated_doses w !! i = Some d -> grid_dose d = true.
Proof.
  intros Hg Hs Hd.
  destruct (allocated_dose_at w i d Hd) as [Hpos E].
  destruct (grid_config_spec _ Hg) as (Hl & [n Hn] & [m Hm]).
  assert (Hi : 0 <= inject_Z (Z.of_nat i)).
  { change 0 with (inject_Z 0). rewrite <- Zle_Qle. lia. }
  assert (Hle : d <= limit).
  { set (k := inject_Z (Z.of_nat i)) in *. clearbody k.
    set (step := decrement (auto (state w))) in *. clearbody step.
    assert (0 <= k * step) by (apply Qmult_le_0_compat; assumption).
    lra. }
  unfold grid_dose.
  rewrite (proj2 (Qle_bool_iff 0 d)) by lra.
  rewrite (proj2 (Qle_bool_iff d limit)) by exact Hle.
  apply multiple_of_iff. exists (n - Z.of_nat i * m)%Z.
  unfold Z.sub. rewrite inject_Z_plus, inject_Z_opp, inject_Z_mult, <- Hn, <- Hm, E.
  field.
Qed.

(** X17.  With the clamped start dose, a decrement that is not negative
    and the strengths of the state on the grid, every step of a run
    carries tablets that total at most the dose it was allocated for, and
    less than half a tablet of the smallest strength below it. *)
Theorem generated_step_total (w : World) (i : nat) (s : Segment) (d : Q)
    (S : list Q) (smallest : Q) :
  grid_config (auto (state w)) = true ->
  0 <= decrement (auto (state w)) ->
  grid_strengths (normalized_strengths w) = true ->
  normalized_strengths w = S ++ [smallest] ->
  generated_steps w !! i = Some s ->
  allocated_doses w !! i = Some d ->
  totalDose (Segment.tablets s) <= d
  /\ d - smallest * (1 # 2) < totalDose (Segment.tablets s).
Proof.
  intros Hg Hdec HG HS Hs Hd.
  pose proof (allocated_dose_grid w i d Hg Hdec Hd) as Hgd.
  assert (Ht : Segment.tablets s = tablets (allocateTablets d (normalized_strengths w))).
  { pose proof (generated_steps_allocated w) as E.
    apply (f_equal (fun l => l !! i)) in E.
    change (map ?f ?l) with (f <$> l) in E. rewrite !list_lookup_fmap, Hs, Hd in E.
    now injection E. }
  pose proof (distinct_normalized w) as Hdis.
  rewrite Ht. rewrite HS in HG, Hdis |- *.
  destruct (allocate_grid_exact d (S ++ [smallest]) Hgd HG Hdis) as [E Hr].
  pose proof (remainder_below_half_tablet d S smallest Hgd HG) as Hb.
  cbv zeta in E, Hr. split; lra.
Qed.

Lemma generated_step_total_witness :
  let w := loaded_world in
  exists s,
    generated_steps w !! 2%nat = Some s
    /\ totalDose (Segment.tablets s) <= 20
    /\ 20 - 5 * (1 # 2) < totalDose (Segment.tablets s).
Proof.
  assert (Hs : generated_steps loaded_world !! 2%nat
               = Some (Segment.mk 6 3 "Once daily (od)" [(25, 1 # 2); (5, 3 # 2)]))
    by (vm_compute; reflexivity).
  eexists. split; [ exact Hs | ].
  apply (generated_step_total loaded_world 2 _ 20 [25] 5).
  - reflexivity.
  - vm_compute. discriminate.
  - vm_compute. reflexivity.
  - vm_compute. reflexivity.
  - exact Hs.
  - vm_compute. reflexivity.
Defined.

(** ** What the handlers do to the segments *)

Lemma render_segments w :
  segments (state (render w))
  = map (renormalized (normalized_strengths w)) (segments (state w)).
Proof. reflexivity. Qed.

Lemma renormalized_keyed u s :
  distinct u = true -> map fst (Segment.tablets s) = u -> renormalized u s = s.
Proof.
  intros Hd Hk. unfold renormalized. rewrite <- Hk, next_tablets_keyed.
  - now destruct s.
  - now rewrite Hk.
Qed.

Lemma map_renormalized_keyed u l :
  distinct u = true -> Forall (fun s => map fst (Segment.tablets s) = u) l ->
  map (renormalized u) l = l.
Proof.
  intros Hd Hl. induction Hl as [ | s l Hs Hl IH ]; [ reflexivity | ].
  cbn [map]. now rewrite IH, renormalized_keyed.
Qed.

Lemma findIndex_middle id l1 s l2 :
  Forall (fun s' => Segment.id s' <> id) l1 -> Segment.id s = id ->
  findIndex id (l1 ++ s :: l2) = Some (length l1).
Proof.
  intros Hl Hs. induction Hl as [ | x l1 Hx Hl IH ]; cbn [app findIndex length].
  - now rewrite (proj2 (Nat.eqb_eq _ _) Hs).
  - now rewrite (proj2 (Nat.eqb_neq _ _) Hx), IH.
Qed.

Lemma updateSegment_middle id f l1 s l2 :
  Forall (fun s' => Segment.id s' <> id) l1 -> Segment.id s = id ->
  updateSegment id f (l1 ++ s :: l2) = l1 ++ f s :: l2.
Proof.
  intros Hl Hs. induction Hl as [ | x l1 Hx Hl IH ]; cbn [app updateSegment].
  - now rewrite (proj2 (Nat.eqb_eq _ _) Hs).
  - now rewrite (proj2 (Nat.eqb_neq _ _) Hx), IH.
Qed.

Lemma updateSegment_absent id f l :
  Forall (fun s' => Segment.id s' <> id) l -> updateSegment id f l = l.
Proof.
  intros Hl. induction Hl as [ | x l Hx Hl IH ]; cbn [updateSegment]; [ reflexivity | ].
  now rewrite (proj2 (Nat.eqb_neq _ _) Hx), IH.
Qed.

Lemma findIndex_absent id l :
  Forall (fun s => Segment.id s <> id) l -> findIndex id l = None.
Proof.
  intros Hall. induction Hall as [ | x l Hx Hl IH ]; cbn [findIndex]; [ reflexivity | ].
  now rewrite (proj2 (Nat.eqb_neq _ _) Hx), IH.
Qed.

Lemma Forall_filter_keep {A} (P : A -> Prop) (F : A -> Prop) `{forall x, Decision (F x)} l :
  Forall P l -> Forall P (filter F l).
Proof.
  intros Hl. induction Hl as [ | x l Hx Hl IH ]; [ constructor | ].
  rewrite filter_cons. destruct (decide (F x)); [ constructor | ]; auto.
Qed.

Section SegmentHandlers.
Variable Number : string -> option Q.

(** X18.  Removing a step removes every segment with its id and leaves the
    other segments as they are, in their order. *)
Theorem remove_segments (id : nat) (w : World) :
  well_formed w ->
  segments (state (handleClick Number (remove id) w))
  = filter (fun s => negb (Nat.eqb (Segment.id s) id)) (segments (state w)).
Proof.
  intros Hw. cbn [handleClick]. rewrite render_segments.
  apply map_renormalized_keyed; [ apply distinct_normalized | ].
  apply Forall_filter_keep, (wf_keyed _ Hw).
Qed.

(** X19.  Duplicating a step puts right after it a copy with the next
    free id, the same days, frequency and tablets, and moves the id
    counter on; nothing else changes among the segments. *)
Theorem duplicate_segments (id : nat) (w : World) (l1 l2 : list Segment) (s : Segment) :
  well_formed w ->
  segments (state w) = l1 ++ s :: l2 ->
  Segment.id s = id ->
  Forall (fun s' => Segment.id s' <> id) l1 ->
  let w' := handleClick Number (duplicate id) w in
  segments (state w') = l1 ++ s :: copy_of (segmentId w) s :: l2
  /\ segmentId w' = S (segmentId w).
Proof.
  intros Hw Hl Hs Hl1 w'. subst w'. cbn [handleClick].
  rewrite Hl, (findIndex_middle id l1 s l2 Hl1 Hs), lookup_here.
  unfold new_segment, createSegment. cbv beta iota zeta.
  split; [ | reflexivity ].
  rewrite render_segments.
  change (segments (state (with_state _ (with_state _ _))))
    with (splice_in (S (length l1)) (copy_of (segmentId w) s) (segments (state w))).
  assert (Hsp : splice_in (S (length l1)) (copy_of (segmentId w) s) (l1 ++ s :: l2)
                = l1 ++ s :: copy_of (segmentId w) s :: l2).
  { unfold splice_in.
    change (l1 ++ s :: l2) with (l1 ++ [s] ++ l2). rewrite app_assoc.
    rewrite take_app_length', drop_app_length' by (rewrite length_app; cbn; lia).
    now rewrite <- app_assoc. }
  rewrite Hl, Hsp.
  apply map_renormalized_keyed; [ apply distinct_normalized | ].
  pose proof (wf_keyed _ Hw) as Hk. unfold segments_keyed in Hk. rewrite Hl in Hk.
  apply Forall_app in Hk as [Hk1 Hk2]. inversion Hk2 as [ | ? ? Hks Hk2' ]; subst.
  apply Forall_app. split; [ exact Hk1 | ].
  constructor; [ exact Hks | ]. constructor; [ exact Hks | exact Hk2' ].
Qed.

(** X20.  Moving a step up swaps it with the segment before it, moving it
    down with the segment after it; the other segments keep their places. *)
Theorem move_segments (id : nat) (w : World) (l1 l2 : list Segment) (a b : Segment) :
  well_formed w ->
  segments (state w) = l1 ++ a :: b :: l2 ->
  Forall (fun s' => Segment.id s' <> id) l1 ->
  (Segment.id a <> id -> Segment.id b = id ->
   segments (state (handleClick Number (move_up id) w)) = l1 ++ b :: a :: l2)
  /\ (Segment.id a = id ->
      segments (state (handleClick Number (move_down id) w)) = l1 ++ b :: a :: l2).
Proof.
  intros Hw Hl Hl1.
  assert (Hkeyed : Forall (fun s => map fst (Segment.tablets s) = normalized_strengths w)
                          (l1 ++ b :: a :: l2)).
  { pose proof (wf_keyed _ Hw) as Hk. unfold segments_keyed in Hk. rewrite Hl in Hk.
    apply Forall_app in Hk as [Hk1 Hk2]. inversion Hk2 as [ | ? ? Ha Hk3 ]; subst.
    inversion Hk3 as [ | ? ? Hb Hk4 ]; subst.
    apply Forall_app. split; [ exact Hk1 | ]. now repeat constructor. }
  split.
  - intros Ha Hb. cbn [handleClick]. rewrite Hl.
    change (l1 ++ a :: b :: l2) with (l1 ++ [a] ++ b :: l2). rewrite app_assoc.
    rewrite (findIndex_middle id (l1 ++ [a]) b l2);
      [ | apply Forall_app; split; [ exact Hl1 | now constructor ] | exact Hb ].
    rewrite length_app. cbn [length]. rewrite Nat.add_1_r.
    rewrite render_segments.
    change (segments (state (with_state _ (with_state _ _))))
      with (swap (S (length l1)) (length l1) (segments (state w))).
    rewrite Hl, swap_adjacent'.
    apply map_renormalized_keyed; [ apply distinct_normalized | exact Hkeyed ].
  - intros Ha. cbn [handleClick]. rewrite Hl.
    rewrite (findIndex_middle id l1 a (b :: l2) Hl1 Ha).
    assert (Hlt : Nat.ltb (S (length l1)) (length (l1 ++ a :: b :: l2)) = true).
    { apply Nat.ltb_lt. rewrite length_app. cbn. lia. }
    rewrite Hlt, render_segments.
    change (segments (state (with_state _ (with_state _ _))))
      with (swap (length l1) (S (length l1)) (segments (state w))).
    rewrite Hl, swap_adjacent.
    apply map_renormalized_keyed; [ apply distinct_normalized | exact Hkeyed ].
Qed.

(** X21.  Duplicating or moving a step that is not there, moving the
    first step up and moving the last step down leave the whole state as
    it is. *)
Theorem no_such_step (id : nat) (w : World) :
  (Forall (fun s => Segment.id s <> id) (segments (state w)) ->
   handleClick Number (duplicate id) w = w
   /\ handleClick Number (move_up id) w = w
   /\ handleClick Number (move_down id) w = w)
  /\ (forall s l, segments (state w) = s :: l -> Segment.id s = id ->
        handleClick Number (move_up id) w = w)
  /\ (forall l s, segments (state w) = l ++ [s] ->
        Forall (fun s' => Segment.id s' <> id) l -> Segment.id s = id ->
        handleClick Number (move_down id) w = w).
Proof.
  split; [ | split ].
  - intros Hall.
    pose proof (findIndex_absent id _ Hall) as E.
    cbn [handleClick]. now rewrite E.
  - intros s l Hl Hs. cbn [handleClick]. rewrite Hl. cbn [findIndex].
    now rewrite (proj2 (Nat.eqb_eq _ _) Hs).
  - intros l s Hl Hall Hs. cbn [handleClick].
    rewrite Hl, (findIndex_middle id l s [] Hall Hs).
    assert (E : Nat.ltb (S (length l)) (length (l ++ [s])) = false).
    { apply Nat.ltb_ge. rewrite length_app. cbn. lia. }
    now rewrite E.
Qed.
End SegmentHandlers.

Lemma remove_segments_witness :
  well_formed loaded_world
  /\ map Segment.id (segments (state (handleClick (fun _ => None) (remove 2) loaded_world)))
     = [1; 3]%nat.
Proof.
  split; [ exact loaded_well_formed | ].
  rewrite (remove_segments (fun _ => None) 2 loaded_world loaded_well_formed).
  reflexivity.
Defined.

Lemma duplicate_segments_witness :
  let w' := handleClick (fun _ => None) (duplicate 2) loaded_world in
  map Segment.id (segments (state w')) = [1; 2; 4; 3]%nat /\ segmentId w' = 5%nat.
Proof.
  destruct (duplicate_segments (fun _ => None) 2 loaded_world
              [Segment.mk 1 3 "Once daily (od)" [(25, 1); (5, 1)]]
              [Segment.mk 3 3 "Once daily (od)" [(25, 0); (5, 4)]]
              (Segment.mk 2 3 "Once daily (od)" [(25, 1); (5, 0)])
              loaded_well_formed eq_refl eq_refl)
    as [Hs Hn].
  { repeat constructor. discriminate. }
  cbv zeta. rewrite Hs, Hn. split; reflexivity.
Defined.

Lemma move_segments_witness :
  map Segment.id (segments (state (handleClick (fun _ => None) (move_up 2) loaded_world)))
  = [2; 1; 3]%nat.
Proof.
  destruct (move_segments (fun _ => None) 2 loaded_world []
              [Segment.mk 3 3 "Once daily (od)" [(25, 0); (5, 4)]]
              (Segment.mk 1 3 "Once daily (od)" [(25, 1); (5, 1)])
              (Segment.mk 2 3 "Once daily (od)" [(25, 1); (5, 0)])
              loaded_well_formed eq_refl (Forall_nil_2 _))
    as [Hup _].
  rewrite Hup; [ reflexivity | discriminate | reflexivity ].
Defined.

Lemma no_such_step_witness :
  handleClick (fun _ => None) (move_up 1) loaded_world = loaded_world
  /\ handleClick (fun _ => None) (duplicate 9) loaded_world = loaded_world.
Proof.
  destruct (no_such_step (fun _ => None) 1 loaded_world) as (_ & Hfirst & _).
  destruct (no_such_step (fun _ => None) 9 loaded_world) as (Habsent & _ & _).
  split.
  - apply (Hfirst _ _ eq_refl eq_refl).
  - apply Habsent. repeat constructor; discriminate.
Defined.

Lemma zero_tablets u : forall acc,
  distinct (map fst acc ++ u) = true ->
  fold_left (fun acc strength => obj_set acc strength 0) u acc
  = acc ++ map (fun s => (s, 0)) u.
Proof.
  induction u as [ | s u IH ]; intros acc Hd; cbn [fold_left map].
  - now rewrite app_nil_r.
  - assert (Hk : has_key acc s = false) by apply (distinct_app_head _ _ _ Hd).
    rewrite (obj_set_fresh _ _ _ Hk), IH.
    + now rewrite <- app_assoc.
    + now rewrite map_app, <- app_assoc.
Qed.

Lemma totalDose_zero u : forall t,
  totalDose (t ++ map (fun s => (s, 0)) u) == totalDose t.
Proof.
  induction u as [ | s u IH ]; intros t; cbn [map].
  - now rewrite app_nil_r.
  - change (t ++ (s, 0) :: map (fun s => (s, 0)) u)
      with (t ++ [(s, 0)] ++ map (fun s => (s, 0)) u).
    rewrite app_assoc, IH, totalDose_app. ring.
Qed.

Lemma schedule_days_app l k : schedule_days (l ++ k) = schedule_days l ++ schedule_days k.
Proof. unfold schedule_days. apply flat_map_app. Qed.

Section StepHandlers.
Variable Number : string -> option Q.
Variable formatDose : Tablets -> string.
Variable addDays : string -> nat -> string.

(** X22.  Adding a step appends a segment with the next free id, 3 days,
    "Once daily (od)" and a count of 0 for every strength; as it totals no
    dose, the day-by-day schedule stays as it was. *)
Theorem add_step_segments (w : World) :
  well_formed w ->
  let w' := handleClick Number add_step w in
  segments (state w')
  = segments (state w) ++ [blank_step (segmentId w) (normalized_strengths w)]
  /\ expandSchedule formatDose addDays (state w')
     = expandSchedule formatDose addDays (state w).
Proof.
  intros Hw w'.
  destruct (well_formed_distinct w Hw) as (Hread & _ & Hdis & _).
  assert (Hs : segments (state w')
               = segments (state w) ++ [blank_step (segmentId w) (normalized_strengths w)]).
  { subst w'. cbn [handleClick]. unfold new_segment, createSegment. cbv beta iota zeta.
    rewrite render_segments.
    change (segments (state (with_state _ (with_state _ _))))
      with (segments (state w)
            ++ [Segment.mk (segmentId w) 3 "Once daily (od)"
                  (fold_left (fun acc strength => obj_set acc strength 0)
                             (read (heap w) (strengths (state w))) [])]).
    rewrite Hread, (zero_tablets _ [] Hdis). cbn [app].
    apply map_renormalized_keyed; [ exact Hdis | ].
    apply Forall_app. split; [ apply (wf_keyed _ Hw) | ].
    constructor; [ | constructor ]. cbn. rewrite map_map. cbn. apply map_id. }
  split; [ exact Hs | ].
  rewrite !expandSchedule_imap, Hs, schedule_days_app.
  assert (Hz : schedule_days [blank_step (segmentId w) (normalized_strengths w)] = []).
  { unfold schedule_days. cbn [flat_map blank_step Segment.tablets].
    assert (E : Qle_bool (totalDose (map (fun s => (s, 0)) (normalized_strengths w))) 0 = true).
    { apply Qle_bool_iff. pose proof (totalDose_zero (normalized_strengths w) []) as Ez.
      cbn [app] in Ez. rewrite Ez. now vm_compute. }
    now rewrite E. }
  rewrite Hz, app_nil_r. apply imap_ext. intros i x _. reflexivity.
Qed.

End StepHandlers.

Lemma add_step_segments_witness :
  let w' := handleClick (fun _ => None) add_step loaded_world in
  segments (state w') = segments (state loaded_world) ++ [blank_step 4 [25; 5]]
  /\ expandSchedule (fun _ => "dose"%string) (fun d _ => d) (state w')
     = expandSchedule (fun _ => "dose"%string) (fun d _ => d) (state loaded_world).
Proof.
  exact (add_step_segments (fun _ => None) (fun _ => "dose"%string) (fun d _ => d)
           loaded_world loaded_well_formed).
Defined.

(** ** Strengths and counts *)

Lemma existsb_filter_ne x s l :
  existsb (Qeq_bool x) (filter (fun s0 => negb (Qeq_bool s0 s)) l)
  = existsb (Qeq_bool x) l && negb (Qeq_bool x s).
Proof.
  induction l as [ | a l IH ]; [ reflexivity | ].
  rewrite filter_cons. cbn [existsb].
  destruct (decide (negb (Qeq_bool a s))) as [Ha | Ha].
  - cbn [existsb]. rewrite IH. destruct (Qeq_bool x a) eqn:E; [ | reflexivity ].
    cbn [orb]. rewrite (Qeq_bool_left s x a E).
    apply Is_true_true in Ha. now rewrite Ha.
  - rewrite IH. destruct (Qeq_bool x a) eqn:E; [ | reflexivity ].
    cbn [orb]. rewrite (Qeq_bool_left s x a E).
    apply Is_true_false in Ha. apply negb_false_iff in Ha. rewrite Ha. cbn.
    now rewrite andb_false_r.
Qed.

Lemma heap_push s w :
  heap (push_strength s w) !! strengths (state w)
  = Some (read (heap w) (strengths (state w)) ++ [s]).
Proof. destruct w as [h n st]. unfold push_strength. cbn. now rewrite lookup_insert_eq. Qed.

Lemma heap_assign v w (l : loc) (arr : list Q) :
  heap w !! l = Some arr -> heap (assign_strengths v w) !! l = Some arr.
Proof.
  destruct w as [h n st]. unfold assign_strengths, alloc. cbn. intros H.
  rewrite lookup_insert_ne; [ exact H | ].
  intros E. apply (is_fresh (dom h)). rewrite E. apply elem_of_dom. now exists arr.
Qed.

(** Two normalizations in a row, as a handler and its [render] make them. *)
Lemma normalize_twice_segment w i s :
  segments (state w) !! i = Some s ->
  exists s',
    segments (state (normalizeStrengths (normalizeStrengths w))) !! i = Some s'
    /\ Segment.id s' = Segment.id s
    /\ Segment.days s' = Segment.days s
    /\ Segment.frequency s' = Segment.frequency s
    /\ forall x,
         obj_get (Segment.tablets s') x
         = if existsb (Qeq_bool x) (read (heap w) (strengths (state w)))
           then Some (default 0 (obj_get (Segment.tablets s) x)) else None.
Proof.
  intros H. pose proof (normalize_segment w i s H) as H1.
  pose proof (normalize_segment _ i _ H1) as H2.
  eexists. split; [ exact H2 | ].
  cbn [Segment.id Segment.days Segment.frequency Segment.tablets]. repeat split.
  intros x. rewrite normalized_normalize, !obj_get_next_tablets, existsb_normalized.
  now destruct (existsb (Qeq_bool x) (read (heap w) (strengths (state w)))).
Qed.

Section StrengthHandlers.
Variable Number : string -> option Q.

(** X23.  Ticking a strength adds it to the strengths and unticking it
    takes it away, whatever else they hold; ticking grows the array that
    was there in place before a new one takes over, unticking leaves it
    alone.  Every segment keeps id, days and frequency and the counts of
    the strengths that stay, and gets a count of 0 for a new one. *)
Theorem toggle_strength_effect (s : Q) (checked : bool) (w : World) :
  let before := read (heap w) (strengths (state w)) in
  let w' := handleClick Number (toggle_strength s checked) w in
  let after := read (heap w') (strengths (state w')) in
  (forall x, existsb (Qeq_bool x) after
             = if checked then existsb (Qeq_bool x) before || Qeq_bool x s
               else existsb (Qeq_bool x) before && negb (Qeq_bool x s))
  /\ (if checked then heap w' !! strengths (state w) = Some (before ++ [s])
      else forall arr, heap w !! strengths (state w) = Some arr ->
                       heap w' !! strengths (state w) = Some arr)
  /\ (forall i seg, segments (state w) !! i = Some seg ->
      exists seg',
        segments (state w') !! i = Some seg'
        /\ Segment.id seg' = Segment.id seg
        /\ Segment.days seg' = Segment.days seg
        /\ Segment.frequency seg' = Segment.frequency seg
        /\ forall x, obj_get (Segment.tablets seg') x
                     = if existsb (Qeq_bool x) after
                       then Some (default 0 (obj_get (Segment.tablets seg) x)) else None).
Proof.
  cbv zeta. cbn [handleClick].
  set (w1 := if checked then push_strength s w else assign_strengths _ w).
  assert (Hafter : read (heap (render (with_state (set_handoutReady false)
                                         (normalizeStrengths w1))))
                        (strengths (state (render (with_state (set_handoutReady false)
                                                     (normalizeStrengths w1)))))
                   = normalized_strengths (normalizeStrengths w1)).
  { apply (normalize_read (with_state (set_handoutReady false) (normalizeStrengths w1))). }
  assert (Hmem : forall x,
            existsb (Qeq_bool x) (normalized_strengths (normalizeStrengths w1))
            = existsb (Qeq_bool x) (read (heap w1) (strengths (state w1)))).
  { intros x. now rewrite normalized_normalize, existsb_normalized. }
  rewrite Hafter. split; [ | split ].
  - intros x. rewrite Hmem. subst w1. destruct checked.
    + rewrite read_push, existsb_app. cbn [existsb]. now rewrite orb_false_r.
    + rewrite read_assign. apply existsb_filter_ne.
  - assert (Hframe : forall arr, heap w1 !! strengths (state w) = Some arr ->
              heap (render (with_state (set_handoutReady false) (normalizeStrengths w1)))
                !! strengths (state w) = Some arr).
    { intros arr H.
      apply (normalize_frame (with_state (set_handoutReady false) (normalizeStrengths w1))).
      now apply normalize_frame. }
    subst w1. destruct checked.
    + apply Hframe, heap_push.
    + intros arr H. apply Hframe. now apply heap_assign.
  - intros i seg Hseg.
    assert (Hseg1 : segments (state w1) !! i = Some seg)
      by (subst w1; destruct checked; exact Hseg).
    destruct (normalize_twice_segment w1 i seg Hseg1) as (seg' & H1 & H2 & H3 & H4 & H5).
    exists seg'. split; [ exact H1 | ]. repeat split; auto.
    intros x. now rewrite Hmem, H5.
Qed.

(** X24.  Entering a count for a strength of a step sets that count (0
    for a text that is no number or is 0) and nothing else; for a strength
    that is not among the strengths it leaves the segments as they were. *)
Theorem update_tablet_segments (id : nat) (x : Q) (value : string) (w : World)
    (l1 l2 : list Segment) (s : Segment) :
  well_formed w ->
  segments (state w) = l1 ++ s :: l2 ->
  Segment.id s = id ->
  Forall (fun s' => Segment.id s' <> id) l1 ->
  let w' := handleChange Number (update_tablet id x value) w in
  exists s',
    segments (state w') = l1 ++ s' :: l2
    /\ Segment.id s' = id
    /\ Segment.days s' = Segment.days s
    /\ Segment.frequency s' = Segment.frequency s
    /\ forall y,
         obj_get (Segment.tablets s') y
         = if existsb (Qeq_bool x) (normalized_strengths w) && Qeq_bool x y
           then Some (number_or Number value 0)
           else obj_get (Segment.tablets s) y.
Proof.
  intros Hw Hl Hs Hl1 w'. subst w'. cbn [handleChange]. rewrite render_segments.
  change (segments (state (with_state _ w)))
    with (updateSegment id
            (fun s => Segment.mk (Segment.id s) (Segment.days s) (Segment.frequency s)
                        (obj_set (Segment.tablets s) x (number_or Number value 0)))
            (segments (state w))).
  change (normalized_strengths (with_state _ w)) with (normalized_strengths w).
  rewrite Hl, (updateSegment_middle _ _ _ _ _ Hl1 Hs), map_app. cbn [map].
  pose proof (wf_keyed _ Hw) as Hk. unfold segments_keyed in Hk. rewrite Hl in Hk.
  apply Forall_app in Hk as [Hk1 Hk2]. inversion Hk2 as [ | ? ? Hks Hk2' ]; subst.
  rewrite !(map_renormalized_keyed _ _ (distinct_normalized w)) by assumption.
  eexists. split; [ reflexivity | ].
  cbn [renormalized Segment.id Segment.days Segment.frequency Segment.tablets].
  repeat split. intros y. rewrite obj_get_next_tablets, obj_get_set.
  assert (Hkey : forall z, obj_get (Segment.tablets s) z
                 = if existsb (Qeq_bool z) (normalized_strengths w)
                   then Some (default 0 (obj_get (Segment.tablets s) z)) else None).
  { intros z. rewrite <- obj_get_next_tablets, <- Hks at 1.
    now rewrite next_tablets_keyed by (rewrite Hks; apply distinct_normalized). }
  destruct (Qeq_bool x y) eqn:Exy.
  - rewrite (existsb_Qeq x y _ Exy), andb_true_r.
    destruct (existsb (Qeq_bool y) (normalized_strengths w)) eqn:Ey; [ reflexivity | ].
    now rewrite (Hkey y), Ey.
  - rewrite andb_false_r. now rewrite <- Hkey.
Qed.
End StrengthHandlers.

Section Reset.
Variable Number : string -> option Q.

(** X25.  "Reset all" brings back the state the page loads with, the
    strengths 25 and 5 in a new array and the three initial steps, except
    that the steps are numbered on from the id counter. *)
Theorem reset_all_state (w : World) :
  let w' := handleClick Number reset_all w in
  read (heap w') (strengths (state w')) = [25; 5]
  /\ map step_view (segments (state w')) = map step_view (segments (state loaded_world))
  /\ ids w' = seq (segmentId w) 3
  /\ segmentId w' = (segmentId w + 3)%nat
  /\ set_segments [] (set_strengths 0%nat (state w'))
     = set_segments [] (set_strengths 0%nat (state loaded_world)).
Proof.
  destruct w as [h n st]. cbv zeta. cbn [handleClick].
  unfold getInitialState, new_segment, createSegment, alloc. cbv beta iota zeta.
  cbn [heap segmentId state].
  set (l := fresh (dom h)).
  set (w1 := mkWorld (<[l := [25; 5]]> h) (S (S (S n))) _).
  assert (Hr : read (heap w1) (strengths (state w1)) = [25; 5]).
  { subst w1. unfold read. cbn. now rewrite lookup_insert_eq. }
  assert (Hn : normalized_strengths w1 = [25; 5]).
  { unfold normalized_strengths. rewrite Hr. reflexivity. }
  split; [ | split; [ | split; [ | split ] ] ].
  - unfold render. rewrite normalize_read. fold (normalized_strengths w1). exact Hn.
  - rewrite render_segments, Hn. reflexivity.
  - unfold render. rewrite normalize_ids. reflexivity.
  - cbn. lia.
  - reflexivity.
Qed.
End Reset.

Lemma toggle_strength_effect_witness :
  let w' := handleClick (fun _ => None) (toggle_strength 10 true) loaded_world in
  existsb (Qeq_bool 10) (read (heap w') (strengths (state w'))) = true
  /\ heap w' !! strengths (state loaded_world)
     = Some (read (heap loaded_world) (strengths (state loaded_world)) ++ [10]).
Proof.
  destruct (toggle_strength_effect (fun _ => None) 10 true loaded_world) as (Hm & Hh & _).
  split; [ | exact Hh ].
  rewrite (Hm 10). reflexivity.
Defined.

Lemma update_tablet_segments_witness :
  let w' := handleChange (fun _ => Some 2) (update_tablet 2 5 "2") loaded_world in
  exists s',
    segments (state w') !! 1%nat = Some s'
    /\ obj_get (Segment.tablets s') 5 = Some 2
    /\ obj_get (Segment.tablets s') 25 = Some 1.
Proof.
  destruct (update_tablet_segments (fun _ => Some 2) 2 5 "2" loaded_world
              [Segment.mk 1 3 "Once daily (od)" [(25, 1); (5, 1)]]
              [Segment.mk 3 3 "Once daily (od)" [(25, 0); (5, 4)]]
              (Segment.mk 2 3 "Once daily (od)" [(25, 1); (5, 0)])
              loaded_well_formed eq_refl eq_refl)
    as (s' & Hs & _ & _ & _ & Hget).
  { repeat constructor. discriminate. }
  exists s'. cbv zeta. rewrite Hs. split; [ reflexivity | ].
  split; [ rewrite (Hget 5) | rewrite (Hget 25) ]; reflexivity.
Defined.

